(** * Refluxio: the dispatch engine

    A verification development for the state container of this repository:
    the structural comparator [deepEqual] (deep-equal.ts), the store core
    [createStore] (create-store.ts) and the middleware pipeline
    [applyMiddleware] (apply-middleware.ts).

    JavaScript objects live in a heap addressed by locations, so that object
    identity, sharing and cycles are the ones of the program; the [WeakMap]
    threaded through [deepEqual] is a finite map from locations to locations
    that every recursive call updates in place. *)

From stdpp Require Import gmap strings list.
From Stdlib Require Import ZArith.

(** ** Values and the object heap *)

Abbreviation loc := nat (only parsing).

(** Numbers: what [Object.is] can tell apart.  [NaN] is one value, the two
    zeros are different values, every other number is its own value. *)
Inductive number :=
| NaN
| NegZero
| Num (z : Z).

Inductive value :=
| VUndefined
| VNull
| VBool (b : bool)
| VNumber (n : number)
| VString (s : string)
| VSymbol (id : nat)
| VFunction (id : nat)
| VRef (l : loc).

#[global] Instance number_eq_dec : EqDecision number.
Proof. solve_decision. Defined.

#[global] Instance value_eq_dec : EqDecision value.
Proof. solve_decision. Defined.

(** A string-keyed member of a record. *)
Record property := Property {
  pkey : string;
  penumerable : bool;
  pvalue : value
}.

(** Identity of a prototype object.  The built-in kinds have their own
    prototype; a record (object literal, class instance, [Object.create])
    carries the identity of the prototype it was made with. *)
Inductive proto :=
| ArrayPrototype
| DatePrototype
| RegExpPrototype
| SetPrototype
| MapPrototype
| RecordPrototype (id : nat).

#[global] Instance proto_eq_dec : EqDecision proto.
Proof. solve_decision. Defined.

(** Objects as the comparator sees them.  A [Set] and a [Map] list their
    entries in insertion order, which is the order of iteration; a [Date]
    holds its time value, [None] for an invalid date (whose [getTime()] is
    [NaN]). *)
Inductive obj :=
| OArray (elems : list value)
| ODate (time : option Z)
| ORegExp (source flags : string)
| OSet (elems : list value)
| OMap (entries : list (value * value))
| ORecord (proto_id : nat) (props : list property) (symbols : list (nat * value)).

(** The heap: the objects, and for every record prototype the string-keyed
    members a record inherits from it (the prototype chain, flattened). *)
Record heap := Heap {
  objects : list obj;
  inherited : nat → list (string * value)
}.

Definition getPrototypeOf (o : obj) : proto :=
  match o with
  | OArray _ => ArrayPrototype
  | ODate _ => DatePrototype
  | ORegExp _ _ => RegExpPrototype
  | OSet _ => SetPrototype
  | OMap _ => MapPrototype
  | ORecord p _ _ => RecordPrototype p
  end.

(** [Object.is]. *)
Definition object_is (a b : value) : bool := bool_decide (a = b).

Fixpoint own_property (ps : list property) (k : string) : option property :=
  match ps with
  | [] => None
  | p :: ps' => if decide (pkey p = k) then Some p else own_property ps' k
  end.

Fixpoint assoc (kvs : list (string * value)) (k : string) : option value :=
  match kvs with
  | [] => None
  | (k', v) :: kvs' => if decide (k' = k) then Some v else assoc kvs' k
  end.

(** [Object.keys(o)]: the own enumerable string keys, in order. *)
Definition enumerable_props (ps : list property) : list property :=
  List.filter penumerable ps.

Definition keys (ps : list property) : list string :=
  pkey <$> enumerable_props ps.

(** [k in o] for a record: own members of either enumerability, then the
    prototype chain. *)
Definition has_property (h : heap) (p : nat) (ps : list property) (k : string) : bool :=
  match own_property ps k with
  | Some _ => true
  | None => bool_decide (is_Some (assoc (inherited h p) k))
  end.

(** [o[k]] for a record. *)
Definition get (h : heap) (p : nat) (ps : list property) (k : string) : value :=
  match own_property ps k with
  | Some q => pvalue q
  | None => default VUndefined (assoc (inherited h p) k)
  end.

(** [getTime() === getTime()]: [NaN] is not strictly equal to itself. *)
Definition time_strict_eq (ta tb : option Z) : bool :=
  match ta, tb with
  | Some x, Some y => bool_decide (x = y)
  | _, _ => false
  end.

(** ** The comparator *)

(** The [seen] map: left-hand object to the right-hand object it was paired
    with.  A result is the verdict and the map as the call left it; [None]
    is a call that did not return within the allowed depth. *)
Abbreviation memo := (gmap loc loc).
Abbreviation verdict := (option (bool * memo)).

Section loops.
Variable cmp : value → value → memo → verdict.

(** Arrays: [for (i < lenA) if (!deepEqual(arrA[i], arrB[i], seen)) return false]. *)
Fixpoint every_index (xs ys : list value) (seen : memo) : verdict :=
  match xs, ys with
  | x :: xs', y :: ys' =>
      match cmp x y seen with
      | Some (true, seen') => every_index xs' ys' seen'
      | r => r
      end
  | _, _ => Some (true, seen)
  end.

(** Sets, inner loop: [for (bv of setB) if (deepEqual(av, bv, seen)) { found; break }]. *)
Fixpoint some_element (av : value) (bs : list value) (seen : memo) : verdict :=
  match bs with
  | [] => Some (false, seen)
  | bv :: bs' =>
      match cmp av bv seen with
      | Some (false, seen') => some_element av bs' seen'
      | r => r
      end
  end.

(** Sets, outer loop: [for (av of setA) { ...; if (!found) return false }]. *)
Fixpoint every_element (xs bs : list value) (seen : memo) : verdict :=
  match xs with
  | [] => Some (true, seen)
  | av :: xs' =>
      match some_element av bs seen with
      | Some (true, seen') => every_element xs' bs seen'
      | r => r
      end
  end.

(** [deepEqual(ak, bk, seen) && deepEqual(av, bv, seen)]. *)
Definition entry_equal (ea eb : value * value) (seen : memo) : verdict :=
  match cmp ea.1 eb.1 seen with
  | Some (true, seen') => cmp ea.2 eb.2 seen'
  | r => r
  end.

Fixpoint some_entry (ea : value * value) (bs : list (value * value)) (seen : memo) : verdict :=
  match bs with
  | [] => Some (false, seen)
  | eb :: bs' =>
      match entry_equal ea eb seen with
      | Some (false, seen') => some_entry ea bs' seen'
      | r => r
      end
  end.

Fixpoint every_entry (xs bs : list (value * value)) (seen : memo) : verdict :=
  match xs with
  | [] => Some (true, seen)
  | ea :: xs' =>
      match some_entry ea bs seen with
      | Some (true, seen') => every_entry xs' bs seen'
      | r => r
      end
  end.

(** Records: [for (key of keysA) { if (!(key in objB)) return false;
    if (!deepEqual(objA[key], objB[key], seen)) return false }]. *)
Fixpoint every_key (h : heap) (p : nat) (psa psb : list property)
    (ks : list string) (seen : memo) : verdict :=
  match ks with
  | [] => Some (true, seen)
  | k :: ks' =>
      if has_property h p psb k then
        match cmp (get h p psa k) (get h p psb k) seen with
        | Some (true, seen') => every_key h p psa psb ks' seen'
        | r => r
        end
      else Some (false, seen)
  end.
End loops.

(** [deepEqual(a, b, seen)], to recursion depth [fuel]. *)
Fixpoint deepEqual (fuel : nat) (h : heap) (a b : value) (seen : memo) : verdict :=
  match fuel with
  | 0 => None
  | S fuel' =>
      if object_is a b then Some (true, seen)
      else
        match a, b with
        | VRef la, VRef lb =>
            match objects h !! la, objects h !! lb with
            | Some oa, Some ob =>
                if negb (bool_decide (getPrototypeOf oa = getPrototypeOf ob))
                then Some (false, seen)
                else
                  match seen !! la with
                  | Some cached => Some (bool_decide (cached = lb), seen)
                  | None =>
                      let seen1 := <[la := lb]> seen in
                      match oa, ob with
                      | OArray ea, OArray eb =>
                          if negb (bool_decide (length ea = length eb))
                          then Some (false, seen1)
                          else every_index (deepEqual fuel' h) ea eb seen1
                      | ODate ta, ODate tb => Some (time_strict_eq ta tb, seen1)
                      | ORegExp sa fa, ORegExp sb fb =>
                          Some (bool_decide (sa = sb) && bool_decide (fa = fb), seen1)
                      | OSet ea, OSet eb =>
                          if negb (bool_decide (length ea = length eb))
                          then Some (false, seen1)
                          else every_element (deepEqual fuel' h) ea eb seen1
                      | OMap ea, OMap eb =>
                          if negb (bool_decide (length ea = length eb))
                          then Some (false, seen1)
                          else every_entry (deepEqual fuel' h) ea eb seen1
                      | ORecord pa psa _, ORecord _ psb _ =>
                          match every_key (deepEqual fuel' h) h pa psa psb (keys psa) seen1 with
                          | Some (true, seen') =>
                              Some (bool_decide (length (keys psa) = length (keys psb)), seen')
                          | r => r
                          end
                      | _, _ => None (* equal prototypes are equal kinds *)
                      end
                  end
            | _, _ => None (* a reference always points into the heap *)
            end
        | _, _ => Some (false, seen)
        end
  end.

(** A top-level call starts from a fresh map.  Every nested call below the top
    one first records a left-hand object that was not recorded before, so the
    depth never exceeds the number of objects (see [deepEqual_total]). *)
Definition equal (h : heap) (a b : value) : option bool :=
  fst <$> deepEqual (S (length (objects h))) h a b ∅.

(** ** Actions, callbacks and the store *)

(** An action is a record with a [type] and a payload, or a thunk: a function
    value, known by its identity. *)
Inductive action :=
| Plain (atype : string) (payload : value)
| Thunk (t : nat).

(** [new Error(message)]. *)
Inductive thrown :=
| Error (message : string).

Definition construction_error : thrown :=
  Error "Dispatching while constructing middleware is not allowed.".

Definition reentrancy_error : thrown :=
  Error "Dispatching while a reducer is executing is not allowed.".

(** The function values of type [Dispatch<S>] that the two modules create.
    [Layer i next] is [chain[i](next)], the closure that [reduceRight] builds
    from the [i]-th middleware and the dispatcher below it. *)
Inductive dispatcher :=
| StoreDispatch    (* [store.dispatch(...)]: the member, read when called *)
| BaseArrow        (* [(action) => baseDispatch(action)] *)
| Placeholder      (* [() => { throw new Error(...) }] *)
| GuardedDispatch  (* [guardedDispatch] *)
| Layer (i : nat) (next : dispatcher)
| ApiDispatch      (* the [dispatch] member handed to every middleware *)
| DispatchVar      (* [dispatch(...)]: applyMiddleware's variable, read when called *).

(** What the functions supplied by the user do when called: reducers,
    listeners, thunks and middlewares are programs over the operations the
    store offers them.  They only read and allocate objects: state is
    immutable by convention. *)
Inductive prog :=
| Ret (v : value)
| Throw (e : thrown)
| Alloc (o : obj) (k : loc → prog)
| Deref (l : loc) (k : option obj → prog)
| GetState (k : value → prog)
| Call (d : dispatcher) (a : action) (k : value → prog)
| Subscribe (l : nat) (k : prog)
| Unsubscribe (l : nat) (k : prog)
| Observe (v : value) (k : prog)
| TryCatch (body : prog) (handler : thrown → prog) (k : value → prog).

(** A middleware, applied to its capability object: [next => action => ...];
    [api.getState] is [GetState], [api.dispatch] is [Call ApiDispatch]. *)
Definition middleware := dispatcher → action → prog.

(** The functions known by identity: listener [l] called with a state, thunk
    [t] called with its [dispatch] argument. *)
Record env := Env {
  listener : nat → value → prog;
  thunk : nat → dispatcher → prog
}.

(** What a run leaves behind, in order. *)
Inductive event :=
| Reduced (state : value) (a : action)   (* the reducer was called *)
| Swapped (next : value)                 (* [currentState = nextState] *)
| Notified (l : nat) (state : value)     (* [listener(currentState)] *)
| Entered (a : action)                   (* [guardedDispatch] passed its guard *)
| Invoked (t : nat)                      (* a thunk was called *)
| Observed (v : value).

(** The variables the closures of [createStore] and [applyMiddleware] share.
    The listener [Set] keeps its entries in insertion order; a deleted entry
    leaves an empty slot, as [Set.prototype.forEach] has it. *)
Record world := World {
  store_heap : heap;
  reducer : value → action → prog;
  currentState : value;
  listeners : list (option nat);
  store_dispatch : dispatcher;
  chain : list middleware;
  dispatch_var : dispatcher;
  isReducing : bool;
  trace : list event
}.

Definition with_heap (h : heap) (w : world) : world :=
  World h (reducer w) (currentState w) (listeners w) (store_dispatch w)
        (chain w) (dispatch_var w) (isReducing w) (trace w).

Definition with_state (s : value) (w : world) : world :=
  World (store_heap w) (reducer w) s (listeners w) (store_dispatch w)
        (chain w) (dispatch_var w) (isReducing w) (trace w).

Definition with_listeners (ls : list (option nat)) (w : world) : world :=
  World (store_heap w) (reducer w) (currentState w) ls (store_dispatch w)
        (chain w) (dispatch_var w) (isReducing w) (trace w).

Definition with_store_dispatch (d : dispatcher) (w : world) : world :=
  World (store_heap w) (reducer w) (currentState w) (listeners w) d
        (chain w) (dispatch_var w) (isReducing w) (trace w).

Definition with_reducing (b : bool) (w : world) : world :=
  World (store_heap w) (reducer w) (currentState w) (listeners w) (store_dispatch w)
        (chain w) (dispatch_var w) b (trace w).

Definition log (e : event) (w : world) : world :=
  World (store_heap w) (reducer w) (currentState w) (listeners w) (store_dispatch w)
        (chain w) (dispatch_var w) (isReducing w) (trace w ++ [e]).

(** [new] of an object: the next free location. *)
Definition alloc (o : obj) (w : world) : loc * world :=
  (length (objects (store_heap w)),
   with_heap (Heap (objects (store_heap w) ++ [o]) (inherited (store_heap w))) w).

(** [Set.prototype.add], [delete] and the entries still present. *)
Definition set_add (l : nat) (es : list (option nat)) : list (option nat) :=
  if bool_decide (Some l ∈ es) then es else es ++ [Some l].

Definition set_delete (l : nat) (es : list (option nat)) : list (option nat) :=
  (λ e, if decide (e = Some l) then None else e) <$> es.

Definition live (es : list (option nat)) : list nat := omap id es.

(** [getState()]. *)
Definition getState (w : world) : value := currentState w.

(** The closure [unsubscribe] that [subscribe(listener)] returns. *)
Definition unsubscribe (l : nat) (w : world) : world :=
  with_listeners (set_delete l (listeners w)) w.

(** [subscribe(listener)]: the store afterwards, and the capability. *)
Definition subscribe (l : nat) (w : world) : world * (world → world) :=
  (with_listeners (set_add l (listeners w)) w, unsubscribe l).

Inductive outcome :=
| Returned (v : value)
| Threw (e : thrown).

Inductive task :=
| Run (p : prog)                          (* the body of a user function *)
| Dispatch (d : dispatcher) (a : action)  (* [d(a)] *)
| ForEach (i : nat)                       (* [listeners.forEach], from entry [i] *).

(** One interpreter for the calls that reach each other: a dispatcher runs
    user functions, and these call dispatchers.  [None] is a run that did not
    finish within [fuel] nested steps. *)
Fixpoint exec (fuel : nat) (E : env) (t : task) (w : world) : option (outcome * world) :=
  match fuel with
  | 0 => None
  | S n =>
      match t with
      | Run p =>
          match p with
          | Ret v => Some (Returned v, w)
          | Throw e => Some (Threw e, w)
          | Alloc o k => exec n E (Run (k (alloc o w).1)) (alloc o w).2
          | Deref l k => exec n E (Run (k (objects (store_heap w) !! l))) w
          | GetState k => exec n E (Run (k (getState w))) w
          | Call d a k =>
              match exec n E (Dispatch d a) w with
              | Some (Returned v, w1) => exec n E (Run (k v)) w1
              | r => r
              end
          | Subscribe l k => exec n E (Run k) (subscribe l w).1
          | Unsubscribe l k => exec n E (Run k) (unsubscribe l w)
          | Observe v k => exec n E (Run k) (log (Observed v) w)
          | TryCatch body handler k =>
              match exec n E (Run body) w with
              | Some (Returned v, w1) => exec n E (Run (k v)) w1
              | Some (Threw e, w1) =>
                  match exec n E (Run (handler e)) w1 with
                  | Some (Returned v, w2) => exec n E (Run (k v)) w2
                  | r => r
                  end
              | None => None
              end
          end
      | Dispatch d a =>
          match d with
          | StoreDispatch => exec n E (Dispatch (store_dispatch w) a) w
          | DispatchVar => exec n E (Dispatch (dispatch_var w) a) w
          | Placeholder => Some (Threw construction_error, w)
          | BaseArrow =>
              (* baseDispatch *)
              match exec n E (Run (reducer w (currentState w) a))
                         (log (Reduced (currentState w) a) w) with
              | Some (Returned nextState, w1) =>
                  match equal (store_heap w1) nextState (currentState w1) with
                  | Some false =>
                      exec n E (ForEach 0) (log (Swapped nextState) (with_state nextState w1))
                  | Some true => Some (Returned VUndefined, w1)
                  | None => None
                  end
              | r => r
              end
          | GuardedDispatch =>
              if isReducing w then Some (Threw reentrancy_error, w)
              else
                match exec n E (Dispatch StoreDispatch a)
                           (with_reducing true (log (Entered a) w)) with
                | Some (o, w1) => Some (o, with_reducing false w1)
                | None => None
                end
          | Layer i next =>
              match chain w !! i with
              | Some mw => exec n E (Run (mw next a)) w
              | None => None
              end
          | ApiDispatch =>
              match a with
              | Thunk t => exec n E (Run (thunk E t (dispatch_var w))) (log (Invoked t) w)
              | Plain _ _ =>
                  match exec n E (Dispatch DispatchVar a) w with
                  | Some (Returned _, w1) => Some (Returned VUndefined, w1)
                  | r => r
                  end
              end
          end
      | ForEach i =>
          match listeners w !! i with
          | None => Some (Returned VUndefined, w)
          | Some None => exec n E (ForEach (S i)) w
          | Some (Some l) =>
              match exec n E (Run (listener E l (currentState w)))
                         (log (Notified l (currentState w)) w) with
              | Some (Returned _, w1) => exec n E (ForEach (S i)) w1
              | r => r
              end
          end
      end
  end.

(** A call that finishes, with its outcome. *)
Definition evaluates (E : env) (t : task) (w : world) (r : outcome * world) : Prop :=
  ∃ fuel, exec fuel E t w = Some r.

(** [applyMiddleware(store, middlewares)]: the composed dispatcher, and the
    variables of the new closures. *)
Definition applyMiddleware (w : world) (middlewares : list middleware) : dispatcher * world :=
  let dispatch :=
    foldr (λ i next, Layer i next) GuardedDispatch (seq 0 (length middlewares)) in
  (dispatch,
   World (store_heap w) (reducer w) (currentState w) (listeners w) (store_dispatch w)
         middlewares dispatch false (trace w)).

(** [createStore(reducer, initialState, middlewares)]. *)
Definition createStore (h : heap) (reducer : value → action → prog)
    (initialState : value) (middlewares : list middleware) : world :=
  let store := World h reducer initialState [] BaseArrow [] Placeholder false [] in
  if bool_decide (0 < length middlewares) then
    let (dispatch, w) := applyMiddleware store middlewares in
    with_store_dispatch dispatch w
  else store.

(** ** Well-formed heaps *)

(** Every reference held by an object points into the heap. *)
Definition value_ok (h : heap) (v : value) : Prop :=
  match v with VRef l => l < length (objects h) | _ => True end.

Definition obj_ok (h : heap) (o : obj) : Prop :=
  match o with
  | OArray es | OSet es => Forall (value_ok h) es
  | OMap es => Forall (λ e, value_ok h e.1 ∧ value_ok h e.2) es
  | ORecord _ ps _ => Forall (λ q, value_ok h (pvalue q)) ps
  | ODate _ | ORegExp _ _ => True
  end.

Definition heap_ok (h : heap) : Prop :=
  Forall (obj_ok h) (objects h) ∧ ∀ p, Forall (λ kv, value_ok h kv.2) (inherited h p).

Definition unseen (h : heap) (seen : memo) : nat :=
  size (set_seq 0 (length (objects h)) ∖ dom seen : gset nat).


(** ** Paired values *)

Definition primitive (v : value) : Prop :=
  match v with VRef _ => False | _ => True end.

(** Two values are paired by [φ]: the same value, or two objects that [φ]
    puts side by side. *)
Definition paired (φ : memo) (a b : value) : Prop :=
  a = b ∨ ∃ la lb, a = VRef la ∧ b = VRef lb ∧ φ !! la = Some lb.

(** ** Shallow structures *)

(** An object all of whose members are primitives.  The entries of a [Set]
    and the keys of a [Map] and of a record are distinct, as the runtime
    keeps them. *)
Definition shallow (o : obj) : Prop :=
  match o with
  | OArray es => Forall primitive es
  | OSet es => Forall primitive es ∧ NoDup es
  | OMap es => Forall (λ e, primitive e.1 ∧ primitive e.2) es ∧ NoDup es.*1
  | ORecord _ ps _ => Forall (λ q, primitive (pvalue q)) ps ∧ NoDup (keys ps)
  | ODate _ | ORegExp _ _ => True
  end.

(** The own keys of a record are distinct. *)
Definition distinct_keys (o : obj) : Prop :=
  match o with
  | ORecord _ ps _ => NoDup (keys ps)
  | _ => True
  end.

(** Whatever key of record [a] the [in] operator finds on record [b] is an
    own enumerable key of [b]: not a member that [b] inherits, and not a
    member hidden from [Object.keys]. *)
Definition own_keys_only (h : heap) (a b : value) : Prop :=
  ∀ la lb pa psa sya pb psb syb,
    a = VRef la → b = VRef lb →
    objects h !! la = Some (ORecord pa psa sya) →
    objects h !! lb = Some (ORecord pb psb syb) →
    ∀ k, k ∈ keys psa → has_property h pb psb k = true → k ∈ keys psb.

(** Modelled on the words of the specification (4.1, steps 5 to 10), one
    level deep, the members compared by identity: what it takes for two
    objects of the same kind to be equal. *)
Definition rule (h : heap) (oa ob : obj) : Prop :=
  match oa, ob with
  | OArray ea, OArray eb => length ea = length eb ∧ ∀ i, ea !! i = eb !! i
  | ODate ta, ODate tb => ∃ t, ta = Some t ∧ tb = Some t
  | ORegExp sa fa, ORegExp sb fb => sa = sb ∧ fa = fb
  | OSet ea, OSet eb => length ea = length eb ∧ ∀ x, x ∈ ea → x ∈ eb
  | OMap ea, OMap eb => length ea = length eb ∧ ∀ e, e ∈ ea → e ∈ eb
  | ORecord pa psa _, ORecord pb psb _ =>
      pa = pb ∧ (∀ k, k ∈ keys psa ↔ k ∈ keys psb) ∧
      ∀ k, k ∈ keys psa → get h pa psa k = get h pb psb k
  | _, _ => False
  end.

(** The right-hand side of the record rule as the specification words it:
    the same set of own enumerable string keys, and under every key two
    values that the comparator, called on them, finds equal. *)
Definition same_keys_equal_members (h : heap) (p : nat) (psa psb : list property) : Prop :=
  (∀ k, k ∈ keys psa ↔ k ∈ keys psb) ∧
  (∀ k, k ∈ keys psa → equal h (get h p psa k) (get h p psb k) = Some true).

(** ** Listeners that only look *)

(** A listener body that, called with state [s] in heap [h], only reads:
    [getState()], a look at an object, a note of what it saw. *)
Fixpoint passive (h : heap) (s : value) (p : prog) : Prop :=
  match p with
  | Ret _ => True
  | GetState k => passive h s (k s)
  | Deref l k => passive h s (k (objects h !! l))
  | Observe _ k => passive h s k
  | _ => False
  end.

(** What such a body notes when every [getState()] in it answers [s]. *)
Fixpoint observations (h : heap) (s : value) (p : prog) : list event :=
  match p with
  | GetState k => observations h s (k s)
  | Deref l k => observations h s (k (objects h !! l))
  | Observe v k => Observed v :: observations h s k
  | _ => []
  end.

Fixpoint steps (h : heap) (s : value) (p : prog) : nat :=
  match p with
  | GetState k => S (steps h s (k s))
  | Deref l k => S (steps h s (k (objects h !! l)))
  | Observe _ k => S (steps h s k)
  | _ => 1
  end.

Definition log_all (es : list event) (w : world) : world :=
  World (store_heap w) (reducer w) (currentState w) (listeners w) (store_dispatch w)
        (chain w) (dispatch_var w) (isReducing w) (trace w ++ es).

(** One pass of notification over the listeners [ls], each called with [s]. *)
Definition pass (E : env) (h : heap) (s : value) (ls : list nat) : list event :=
  flat_map (λ l, Notified l s :: observations h s (listener E l s)) ls.

(** How often listener [l] was called in a trace. *)
Fixpoint times_notified (l : nat) (tr : list event) : nat :=
  match tr with
  | [] => 0
  | Notified l' _ :: tr' => (if decide (l' = l) then 1 else 0) + times_notified l tr'
  | _ :: tr' => times_notified l tr'
  end.

Definition is_entered (e : event) : Prop :=
  match e with Entered _ => True | _ => False end.

(** A later world that kept the guard flag and, since the earlier one, let
    no call pass the guard. *)
Definition quiet (w w' : world) : Prop :=
  isReducing w' = isReducing w ∧
  ∃ tr, trace w' = trace w ++ tr ∧ Forall (λ e, ¬ is_entered e) tr.

(** The middleware that only forwards: [() => (next) => (action) => next(action)]. *)
Definition forward : middleware := λ next a, Call next a Ret.

(** The dispatcher [reduceRight] builds from the layers [i], [i+1], ... *)
Definition layers (i n : nat) : dispatcher :=
  foldr (λ i next, Layer i next) GuardedDispatch (seq i n).

(** A body that only computes: it reads, allocates, notes, returns or
    throws, and calls nothing of the store. *)
Fixpoint computes (p : prog) : Prop :=
  match p with
  | Ret _ | Throw _ => True
  | Alloc _ k => ∀ l, computes (k l)
  | Deref _ k => ∀ o, computes (k o)
  | GetState k => ∀ s, computes (k s)
  | Observe _ k => computes k
  | _ => False
  end.

Definition is_observed (e : event) : Prop :=
  match e with Observed _ => True | _ => False end.

(** What such a body leaves alone: the state cell, the listeners, the guard
    flag; to the trace it only adds its notes. *)
Definition untouched (w w' : world) : Prop :=
  currentState w' = currentState w ∧ listeners w' = listeners w ∧
  isReducing w' = isReducing w ∧
  ∃ tr, trace w' = trace w ++ tr ∧ Forall is_observed tr.

(** What a reducer that only computes leaves behind when called with action
    [a]: the record of its call, and its notes. *)
Definition reduced_only (w : world) (a : action) (w1 : world) : Prop :=
  currentState w1 = currentState w ∧ listeners w1 = listeners w ∧
  ∃ tr, trace w1 = trace w ++ Reduced (currentState w) a :: tr ∧ Forall is_observed tr.

(** ** Sample structures and stores *)

Module Sample.
Open Scope string_scope.

(** What a record inherits from [Object.prototype], prototype 0: among
    others [constructor], the function [Object]. *)
Definition object_prototype (p : nat) : list (string * value) :=
  match p with
  | 0 => [("constructor", VFunction 0); ("toString", VFunction 1);
          ("valueOf", VFunction 2); ("hasOwnProperty", VFunction 3)]
  | _ => []
  end.

(** An object literal [{ k1: v1, ... }]. *)
Definition literal (ps : list (string * value)) : obj :=
  ORecord 0 ((λ kv, Property kv.1 true kv.2) <$> ps) [].

Definition num (z : Z) : value := VNumber (Num z).

(** [new Set([{v:1}, {v:1}])] at 0 and [new Set([{v:1}, {v:2}])] at 3. *)
Definition two_sets : heap :=
  Heap [OSet [VRef 1; VRef 2]; literal [("v", num 1)]; literal [("v", num 1)];
        OSet [VRef 4; VRef 5]; literal [("v", num 1)]; literal [("v", num 2)]]
       object_prototype.

(** [[x, x]] at 0 and [[y1, y2]] at 1, with [x], [y1], [y2] three empty
    records. *)
Definition shared_element : heap :=
  Heap [OArray [VRef 2; VRef 2]; OArray [VRef 3; VRef 4];
        literal []; literal []; literal []]
       object_prototype.

(** [new Set([1, 2, 3])] at 0 and [new Set([3, 2, 1])] at 1. *)
Definition number_sets : heap :=
  Heap [OSet [num 1; num 2; num 3]; OSet [num 3; num 2; num 1]] object_prototype.

(** [{p: x, q: x}] at 0 and [{p: y1, q: y2}] at 1, with [x], [y1], [y2]
    three records [{v: 1}]. *)
Definition shared_member : heap :=
  Heap [literal [("p", VRef 2); ("q", VRef 2)]; literal [("p", VRef 3); ("q", VRef 4)];
        literal [("v", num 1)]; literal [("v", num 1)]; literal [("v", num 1)]]
       object_prototype.

(** [{constructor: Object}] at 0 and [{z: 1}] at 1. *)
Definition inherited_key : heap :=
  Heap [literal [("constructor", VFunction 0)]; literal [("z", num 1)]] object_prototype.

(** Self-referential records: [a = {self: a}] at 0, [b = {self: b}] at 1,
    [c = {self: c, v: null}] at 2. *)
Definition loops : heap :=
  Heap [literal [("self", VRef 0)]; literal [("self", VRef 1)];
        literal [("self", VRef 2); ("v", VNull)]]
       object_prototype.

(** [a = {self: a, items: new Set([{v:1}, {v:2}])}] at 0, and at 4 the
    value built by the same expression once more. *)
Definition looped_sets : heap :=
  Heap [literal [("self", VRef 0); ("items", VRef 1)];
        OSet [VRef 2; VRef 3]; literal [("v", num 1)]; literal [("v", num 2)];
        literal [("self", VRef 4); ("items", VRef 5)];
        OSet [VRef 6; VRef 7]; literal [("v", num 1)]; literal [("v", num 2)]]
       object_prototype.

(** With [x = {v:1}] at 4 and [y = {v:2}] at 5:
    [a = [new Set([x, y]), x, a]] at 0 and [b = [new Set([y, x]), y, b]] at 1. *)
Definition looped_arrays : heap :=
  Heap [OArray [VRef 2; VRef 4; VRef 0]; OArray [VRef 3; VRef 5; VRef 1];
        OSet [VRef 4; VRef 5]; OSet [VRef 5; VRef 4];
        literal [("v", num 1)]; literal [("v", num 2)]]
       object_prototype.

(** The counter of the tests: state [{count: n}]. *)
Definition count_obj (n : Z) : obj := literal [("count", num n)].

Definition read_count (s : value) (k : Z → prog) : prog :=
  match s with
  | VRef l =>
      Deref l (λ o,
        match o with
        | Some (ORecord _ ps _) =>
            match own_property ps "count" with
            | Some (Property _ _ (VNumber (Num n))) => k n
            | _ => Throw (Error "TypeError")
            end
        | _ => Throw (Error "TypeError")
        end)
  | _ => Throw (Error "TypeError")
  end.

(** [inc] returns [{count: state.count + 1}], [clone] a fresh
    [{count: state.count}], [boom] throws, anything else returns [state]. *)
Definition counter (s : value) (a : action) : prog :=
  match a with
  | Plain "inc" _ => read_count s (λ n, Alloc (count_obj (n + 1)) (λ l, Ret (VRef l)))
  | Plain "clone" _ => read_count s (λ n, Alloc (count_obj n) (λ l, Ret (VRef l)))
  | Plain "boom" _ => Throw (Error "boom")
  | _ => Ret s
  end.

Definition inc : action := Plain "inc" VUndefined.
Definition clone : action := Plain "clone" VUndefined.
Definition boom : action := Plain "boom" VUndefined.

Definition initial_heap : heap := Heap [count_obj 0] object_prototype.

(** Listener 1 notes what [getState()] answers; listener 2 does nothing;
    listener 3 first cancels the subscription of listener 2.  Thunk [t]
    dispatches [inc]. *)
Definition functions : env :=
  Env (λ l s,
         match l with
         | 1 => GetState (λ s', Observe s' (Ret VUndefined))
         | 3 => Unsubscribe 2 (Ret VUndefined)
         | _ => Ret VUndefined
         end)
      (λ t dispatch, Call dispatch inc Ret).

(** A reducer that, on [inc], calls the dispatch function that
    [applyMiddleware(store, [])] returned, which is [guardedDispatch]. *)
Definition reentrant (s : value) (a : action) : prog :=
  match a with
  | Plain "inc" _ => Call GuardedDispatch (Plain "again" VUndefined) (λ _, Ret s)
  | _ => Ret s
  end.

(** [store = createStore(reentrant, {count: 0})] after
    [applyMiddleware(store, [])]. *)
Definition guarded_store : world :=
  (applyMiddleware (createStore initial_heap reentrant (VRef 0) []) []).2.

(** [createStore(counter, {count: 0})]. *)
Definition plain_store : world := createStore initial_heap counter (VRef 0) [].

(** [createStore(counter, {count: 0}, [forward])]. *)
Definition piped_store : world := createStore initial_heap counter (VRef 0) [forward].

(** The plain store with listener 1 subscribed; with listeners 1 and 2;
    with listeners 3 and 2. *)
Definition watched_store : world := (subscribe 1 plain_store).1.
Definition watched_twice : world := (subscribe 2 (subscribe 1 plain_store).1).1.
Definition cancelling_store : world := (subscribe 2 (subscribe 3 plain_store).1).1.
End Sample.

(** ** Agreement: the comparator's own rule, object by object *)

(** What the branches of [deepEqual] ask of two objects once their members
    are paired by [φ].  For a record this is the test as the code makes it:
    as many own enumerable keys on both sides, and every key of the left one
    found on the right one by [in]. *)
Definition obj_agrees (h : heap) (φ : memo) (oa ob : obj) : Prop :=
  match oa, ob with
  | OArray ea, OArray eb => Forall2 (paired φ) ea eb
  | ODate ta, ODate tb => time_strict_eq ta tb = true
  | ORegExp sa fa, ORegExp sb fb => sa = sb ∧ fa = fb
  | OSet ea, OSet eb => length ea = length eb ∧ ∀ x, x ∈ ea → x ∈ eb
  | OMap ea, OMap eb => length ea = length eb ∧ ∀ e, e ∈ ea → e ∈ eb
  | ORecord pa psa _, ORecord pb psb _ =>
      pa = pb ∧ length (keys psa) = length (keys psb) ∧
      Forall (λ k, has_property h pa psb k = true ∧
                   paired φ (get h pa psa k) (get h pa psb k)) (keys psa)
  | _, _ => False
  end.

Definition agrees_at (h : heap) (φ : memo) (la lb : nat) : Prop :=
  ∃ oa ob, objects h !! la = Some oa ∧ objects h !! lb = Some ob ∧ obj_agrees h φ oa ob.

(** [φ] lays the left-hand objects over right-hand objects that agree. *)
Definition agreement (h : heap) (φ : memo) : Prop :=
  ∀ la lb, φ !! la = Some lb → agrees_at h φ la lb.

(** A heap whose [Set]s and [Map]s hold primitives only. *)
Definition tame (h : heap) : Prop :=
  ∀ l o, objects h !! l = Some o →
    match o with
    | OSet es => Forall primitive es
    | OMap es => Forall (λ e, primitive e.1 ∧ primitive e.2) es
    | _ => True
    end.

(** The pairs that a call added to the memo all agree. *)
Definition added_agree (h : heap) (s s' : memo) : Prop :=
  ∀ la lb, s' !! la = Some lb → s !! la = None → agrees_at h s' la lb.

(** ** More sample structures *)

Module More.
Open Scope string_scope.

(** Two invalid dates, [new Date(NaN)] twice, at 0 and 1; a valid one at 2. *)
Definition dates : heap :=
  Heap [ODate None; ODate None; ODate (Some 1577836800000%Z)] Sample.object_prototype.

(** [{toString: Object.prototype.toString}] at 0 and [{z: 1}] at 1. *)
Definition inheriting : heap :=
  Heap [Sample.literal [("toString", VFunction 1)]; Sample.literal [("z", Sample.num 1)]]
       Sample.object_prototype.

(** [new Map([["a", 1], ["b", 2]])] at 0 and [new Map([["b", 2], ["a", 1]])]
    at 1. *)
Definition small_maps : heap :=
  Heap [OMap [(VString "a", Sample.num 1); (VString "b", Sample.num 2)];
        OMap [(VString "b", Sample.num 2); (VString "a", Sample.num 1)]]
       Sample.object_prototype.

(** [[1, 2, 3]] at 0, [[1, 2, 3]] at 1 and [[3, 2, 1]] at 2. *)
Definition small_arrays : heap :=
  Heap [OArray [Sample.num 1; Sample.num 2; Sample.num 3];
        OArray [Sample.num 1; Sample.num 2; Sample.num 3];
        OArray [Sample.num 3; Sample.num 2; Sample.num 1]]
       Sample.object_prototype.
End More.

(** ** Middlewares that run when constructed, and that log *)

(** The middleware of the tests and of the README: note [before], call
    [next], note [after], return what [next] returned. *)
Definition logging (before after : value) : middleware :=
  λ next a, Observe before (Call next a (λ r, Observe after (Ret r))).

(** A middleware as [applyMiddleware] receives it: [(api) => { setup; return
    handler }].  [setup] runs when the chain is built. *)
Record constructor := Constructor {
  setup : prog;
  handler : middleware
}.

(** [middlewares.map((mw) => mw({...}))]: the constructors run in order; the
    first that throws ends the construction. *)
Fixpoint construct (fuel : nat) (E : env) (cs : list constructor) (w : world)
    : option (option thrown * world) :=
  match cs with
  | [] => Some (None, w)
  | c :: cs' =>
      match exec fuel E (Run (setup c)) w with
      | Some (Returned _, w1) => construct fuel E cs' w1
      | Some (Threw e, w1) => Some (Some e, w1)
      | None => None
      end
  end.

(** [applyMiddleware(store, middlewares)] with constructors that run: while
    they do, [dispatch] is the placeholder; afterwards it is the composed
    dispatcher.  The result is that dispatcher, or what a constructor threw. *)
Definition applyMiddleware_running (fuel : nat) (E : env) (w : world)
    (cs : list constructor) : option ((thrown + dispatcher) * world) :=
  let building :=
    World (store_heap w) (reducer w) (currentState w) (listeners w) (store_dispatch w)
          [] Placeholder false (trace w) in
  match construct fuel E cs building with
  | Some (None, w1) =>
      let dispatch := layers 0 (length cs) in
      Some (inr dispatch,
            World (store_heap w1) (reducer w1) (currentState w1) (listeners w1)
                  (store_dispatch w1) (handler <$> cs) dispatch (isReducing w1) (trace w1))
  | Some (Some e, w1) => Some (inl e, w1)
  | None => None
  end.

Module MoreStores.
Open Scope string_scope.

(** Listener 4 throws; every other listener is as in [Sample.functions]. *)
Definition functions : env :=
  Env (λ l s, match l with
              | 4 => Throw (Error "listener failed")
              | _ => listener Sample.functions l s
              end)
      (thunk Sample.functions).

(** The plain store with listeners 1, 4 and 2 subscribed, in that order. *)
Definition failing_store : world :=
  (subscribe 2 (subscribe 4 (subscribe 1 Sample.plain_store).1).1).1.

(** [applyMiddleware(store, [A, B])] over the plain store, [A] and [B]
    logging. *)
Definition onion : dispatcher * world :=
  applyMiddleware Sample.plain_store
    [logging (VString "A before") (VString "A after");
     logging (VString "B before") (VString "B after")].

(** A constructor that dispatches while the chain is being built. *)
Definition eager : constructor :=
  Constructor (Call ApiDispatch Sample.inc Ret) forward.

Definition lazy : constructor := Constructor (Ret VUndefined) forward.
End MoreStores.

(** ** Positions inside a value *)

(** A step from an object to one of its members: an index of an array, or a
    key of a record, found as [key in obj] finds it and read as [obj[key]]
    reads it. *)
Inductive edge :=
| Index (i : nat)
| Key (k : string).

Definition member (h : heap) (o : obj) (e : edge) : option value :=
  match o, e with
  | OArray es, Index i => es !! i
  | ORecord p ps _, Key k => if has_property h p ps k then Some (get h p ps k) else None
  | _, _ => None
  end.

(** The value at the end of [path], starting from [v]. *)
Fixpoint reach (h : heap) (v : value) (path : list edge) : option value :=
  match path with
  | [] => Some v
  | e :: path' =>
      match v with
      | VRef l =>
          match objects h !! l with
          | Some o =>
              match member h o e with
              | Some v' => reach h v' path'
              | None => None
              end
          | None => None
          end
      | _ => None
      end
  end.

(** Object [l] belongs to [v]: some path leads from [v] to it. *)
Definition inside (h : heap) (v : value) (l : nat) : Prop :=
  ∃ path, reach h v path = Some (VRef l).

(** A value none of whose [Set]s and [Map]s holds an object. *)
Definition tame_value (h : heap) (v : value) : Prop :=
  ∀ l o, inside h v l → objects h !! l = Some o →
    match o with
    | OSet es => Forall primitive es
    | OMap es => Forall (λ e, primitive e.1 ∧ primitive e.2) es
    | _ => True
    end.

(** Object [la] of [a] and object [lb] of [b] stand at the same position. *)
Definition faces (h : heap) (a b : value) (la lb : nat) : Prop :=
  ∃ path, reach h a path = Some (VRef la) ∧ reach h b path = Some (VRef lb).

(** The objects of [a] and [b] face each other one to one: no object of
    either value stands opposite two different objects of the other. *)
Definition one_to_one (h : heap) (a b : value) : Prop :=
  ∀ la lb la' lb', faces h a b la lb → faces h a b la' lb' → (la = la' ↔ lb = lb').

(** No object of [a] is met twice: [a] is a tree. *)
Definition unshared (h : heap) (a : value) : Prop :=
  ∀ p q l, reach h a p = Some (VRef l) → reach h a q = Some (VRef l) → p = q.

(** The entries of a [Set] and the keys of a [Map] and of a record are
    distinct, as the runtime keeps them. *)
Definition distinct (o : obj) : Prop :=
  match o with
  | OSet es => NoDup es
  | OMap es => NoDup es.*1
  | ORecord _ ps _ => NoDup (keys ps)
  | _ => True
  end.

(** A value whose objects all are so. *)
Definition proper (h : heap) (v : value) : Prop :=
  ∀ l o, inside h v l → objects h !! l = Some o → distinct o.

(** Wherever a record of [a] faces a record of [b] of the same prototype,
    whatever key of the one the [in] operator finds on the other is an own
    enumerable key of that other. *)
Definition keys_are_own (h : heap) (a b : value) : Prop :=
  ∀ la lb p psa sya psb syb,
    faces h a b la lb →
    objects h !! la = Some (ORecord p psa sya) →
    objects h !! lb = Some (ORecord p psb syb) →
    (∀ k, k ∈ keys psa → has_property h p psb k = true → k ∈ keys psb) ∧
    (∀ k, k ∈ keys psb → has_property h p psa k = true → k ∈ keys psa).

(** The pairing [φ] read from right to left. *)
Definition invert (φ : memo) : memo :=
  list_to_map (prod_swap <$> map_to_list φ).

(** The record rule as the code has it: as many own enumerable keys on both
    sides, and every key of the left record found on the right one by [in],
    with members that the comparator, called on them, finds equal. *)
Definition in_rule (h : heap) (p : nat) (psa psb : list property) : Prop :=
  length (keys psa) = length (keys psb) ∧
  ∀ k, k ∈ keys psa →
    has_property h p psb k = true ∧
    equal h (get h p psa k) (get h p psb k) = Some true.

(** ** Nested and cyclic samples *)

Module Nested.
Open Scope string_scope.

(** [[{name: "ann"}, {name: "bob"}]] at 0, and at 1 the value built by the
    same expression once more. *)
Definition rows : heap :=
  Heap [OArray [VRef 2; VRef 3]; OArray [VRef 4; VRef 5];
        Sample.literal [("name", VString "ann")]; Sample.literal [("name", VString "bob")];
        Sample.literal [("name", VString "ann")]; Sample.literal [("name", VString "bob")]]
       Sample.object_prototype.

(** [{user: {name: "ann"}, n: 1}] at 0, with a symbol-keyed member besides,
    and [{n: 1, user: {name: "ann"}}] at 1. *)
Definition profiles : heap :=
  Heap [ORecord 0 [Property "user" true (VRef 2); Property "n" true (Sample.num 1)]
                  [(7, Sample.num 9)];
        Sample.literal [("n", Sample.num 1); ("user", VRef 3)];
        Sample.literal [("name", VString "ann")];
        Sample.literal [("name", VString "ann")]]
       Sample.object_prototype.

(** A cycle of two records, [a = {self: a2}] at 0 with [a2 = {self: a}] at
    1, and a cycle of one, [b = {self: b}] at 2. *)
Definition cycle_lengths : heap :=
  Heap [Sample.literal [("self", VRef 1)]; Sample.literal [("self", VRef 0)];
        Sample.literal [("self", VRef 2)]]
       Sample.object_prototype.

(** Self-referential records that differ below the top:
    [a = {self: a, v: {x: 1}}] at 0, [b = {self: b, v: {x: 2}}] at 2, and
    [c = {self: c, v: {x: 1}}] at 4. *)
Definition differ_below : heap :=
  Heap [Sample.literal [("self", VRef 0); ("v", VRef 1)]; Sample.literal [("x", Sample.num 1)];
        Sample.literal [("self", VRef 2); ("v", VRef 3)]; Sample.literal [("x", Sample.num 2)];
        Sample.literal [("self", VRef 4); ("v", VRef 5)]; Sample.literal [("x", Sample.num 1)]]
       Sample.object_prototype.
End Nested.

(** * The comparator always returns *)

Lemma unseen_mono h (s s' : memo) : dom s ⊆ dom s' → unseen h s' ≤ unseen h s.
Proof. intros Hs. apply subseteq_size. set_solver. Qed.

Lemma unseen_insert h (s : memo) la lb :
  la < length (objects h) → s !! la = None → unseen h (<[la:=lb]> s) < unseen h s.
Proof.
  intros Hla Hnone. apply subset_size. 
  rewrite dom_insert_L. split; [set_solver|].
  intros Hsub. specialize (Hsub la).
  assert (la ∈ (set_seq 0 (length (objects h)) ∖ dom s : gset nat)) as Hin.
  { apply elem_of_difference. split; [apply elem_of_set_seq; lia|].
    by apply not_elem_of_dom. }
  apply Hsub in Hin. set_solver.
Qed.

Lemma own_property_ok h ps k q :
  Forall (λ q, value_ok h (pvalue q)) ps → own_property ps k = Some q → value_ok h (pvalue q).
Proof.
  induction 1 as [|p ps Hp _ IH]; simpl; [done|].
  case_decide; [by intros [= <-]|done].
Qed.

Lemma assoc_ok h kvs k v :
  Forall (λ kv, value_ok h kv.2) kvs → assoc kvs k = Some v → value_ok h v.
Proof.
  induction 1 as [|[k' v'] kvs Hp _ IH]; simpl; [done|].
  case_decide; [by intros [= <-]|done].
Qed.

Lemma get_ok h p ps k :
  heap_ok h → Forall (λ q, value_ok h (pvalue q)) ps → value_ok h (get h p ps k).
Proof.
  intros [_ Hinh] Hps. unfold get.
  destruct (own_property ps k) as [q|] eqn:Hq; [by eapply own_property_ok|].
  destruct (assoc (inherited h p) k) as [v|] eqn:Hv; simpl; [|done].
  eapply assoc_ok; [apply Hinh|done].
Qed.

Section total_loops.
Variable h : heap.
Variable cmp : value → value → memo → verdict.
Variable D : gset loc.
Hypothesis cmp_total : ∀ x y (s : memo),
  value_ok h x → value_ok h y → D ⊆ dom s →
  ∃ r s', cmp x y s = Some (r, s') ∧ dom s ⊆ dom s'.

Lemma every_index_total xs ys (s : memo) :
  Forall (value_ok h) xs → Forall (value_ok h) ys → D ⊆ dom s →
  ∃ r s', every_index cmp xs ys s = Some (r, s') ∧ dom s ⊆ dom s'.
Proof.
  intros Hxs. revert ys s.
  induction Hxs as [|x xs Hx _ IH]; intros ys s Hys Hs; simpl; [by eauto|].
  destruct Hys as [|y ys Hy Hys]; [by eauto|].
  destruct (cmp_total x y s) as ([] & s' & -> & Hs'); [done..| |by eauto].
  destruct (IH ys s') as (r & s'' & -> & Hs''); [done|set_solver|].
  exists r, s''. split; [done|set_solver].
Qed.

Lemma some_element_total av bs (s : memo) :
  value_ok h av → Forall (value_ok h) bs → D ⊆ dom s →
  ∃ r s', some_element cmp av bs s = Some (r, s') ∧ dom s ⊆ dom s'.
Proof.
  intros Hav Hbs. revert s.
  induction Hbs as [|y ys Hy _ IH]; intros s Hs; simpl; [by eauto|].
  destruct (cmp_total av y s) as ([] & s' & -> & Hs'); [done..|by eauto|].
  destruct (IH s') as (r & s'' & -> & Hs''); [set_solver|].
  exists r, s''. split; [done|set_solver].
Qed.

Lemma every_element_total xs bs (s : memo) :
  Forall (value_ok h) xs → Forall (value_ok h) bs → D ⊆ dom s →
  ∃ r s', every_element cmp xs bs s = Some (r, s') ∧ dom s ⊆ dom s'.
Proof.
  intros Hxs Hbs. revert s.
  induction Hxs as [|x xs Hx _ IH]; intros s Hs; simpl; [by eauto|].
  destruct (some_element_total x bs s) as ([] & s' & -> & Hs'); [done..| |by eauto].
  destruct (IH s') as (r & s'' & -> & Hs''); [set_solver|].
  exists r, s''. split; [done|set_solver].
Qed.

Lemma entry_equal_total ea eb (s : memo) :
  value_ok h ea.1 → value_ok h ea.2 → value_ok h eb.1 → value_ok h eb.2 → D ⊆ dom s →
  ∃ r s', entry_equal cmp ea eb s = Some (r, s') ∧ dom s ⊆ dom s'.
Proof.
  intros ???? Hs. unfold entry_equal.
  destruct (cmp_total ea.1 eb.1 s) as ([] & s' & -> & Hs'); [done..| |by eauto].
  destruct (cmp_total ea.2 eb.2 s') as (r & s'' & -> & Hs''); [done|done|set_solver|].
  exists r, s''. split; [done|set_solver].
Qed.

Lemma some_entry_total ea bs (s : memo) :
  value_ok h ea.1 → value_ok h ea.2 →
  Forall (λ e, value_ok h e.1 ∧ value_ok h e.2) bs → D ⊆ dom s →
  ∃ r s', some_entry cmp ea bs s = Some (r, s') ∧ dom s ⊆ dom s'.
Proof.
  intros H1 H2 Hbs. revert s.
  induction Hbs as [|y ys [Hy1 Hy2] _ IH]; intros s Hs; simpl; [by eauto|].
  destruct (entry_equal_total ea y s) as ([] & s' & -> & Hs'); [done..|by eauto|].
  destruct (IH s') as (r & s'' & -> & Hs''); [set_solver|].
  exists r, s''. split; [done|set_solver].
Qed.

Lemma every_entry_total xs bs (s : memo) :
  Forall (λ e, value_ok h e.1 ∧ value_ok h e.2) xs →
  Forall (λ e, value_ok h e.1 ∧ value_ok h e.2) bs → D ⊆ dom s →
  ∃ r s', every_entry cmp xs bs s = Some (r, s') ∧ dom s ⊆ dom s'.
Proof.
  intros Hxs Hbs. revert s.
  induction Hxs as [|x xs [Hx1 Hx2] _ IH]; intros s Hs; simpl; [by eauto|].
  destruct (some_entry_total x bs s) as ([] & s' & -> & Hs'); [done..| |by eauto].
  destruct (IH s') as (r & s'' & -> & Hs''); [set_solver|].
  exists r, s''. split; [done|set_solver].
Qed.

Lemma every_key_total p psa psb ks (s : memo) :
  heap_ok h →
  Forall (λ q, value_ok h (pvalue q)) psa → Forall (λ q, value_ok h (pvalue q)) psb →
  D ⊆ dom s →
  ∃ r s', every_key cmp h p psa psb ks s = Some (r, s') ∧ dom s ⊆ dom s'.
Proof.
  intros Hh Ha Hb. revert s.
  induction ks as [|k ks IH]; intros s Hs; simpl; [by eauto|].
  destruct (has_property h p psb k); [|by eauto].
  destruct (cmp_total (get h p psa k) (get h p psb k) s) as ([] & s' & -> & Hs');
    [by apply get_ok..|done| |by eauto].
  destruct (IH s') as (r & s'' & -> & Hs''); [set_solver|].
  exists r, s''. split; [done|set_solver].
Qed.
End total_loops.

Lemma lookup_obj_ok h l o : heap_ok h → objects h !! l = Some o → obj_ok h o.
Proof. intros [Hh _] Hl. eapply Forall_lookup_1 in Hh; eauto. Qed.

Lemma deepEqual_total_from fuel h :
  heap_ok h → ∀ a b (seen : memo),
  value_ok h a → value_ok h b → unseen h seen < fuel →
  ∃ r seen', deepEqual fuel h a b seen = Some (r, seen') ∧ dom seen ⊆ dom seen'.
Proof.
  intros Hh. induction fuel as [|fuel IH]; intros a b seen Ha Hb Hfuel; [lia|].
  cbn [deepEqual]. destruct (object_is a b); [by eauto|].
  destruct a as [| | | | | | |la]; try by eauto.
  destruct b as [| | | | | | |lb]; try by eauto.
  simpl in Ha, Hb.
  destruct (lookup_lt_is_Some_2 _ _ Ha) as [oa Hoa].
  destruct (lookup_lt_is_Some_2 _ _ Hb) as [ob Hob].
  rewrite Hoa, Hob.
  case_bool_decide as Hproto; simpl; [|by eauto].
  destruct (seen !! la) as [c|] eqn:Hseen; [by eauto|].
  pose proof (unseen_insert h seen la lb Ha Hseen) as Hlt.
  pose proof (lookup_obj_ok _ _ _ Hh Hoa) as Hoka.
  pose proof (lookup_obj_ok _ _ _ Hh Hob) as Hokb.
  assert (Hcmp : ∀ x y (s : memo), value_ok h x → value_ok h y →
            dom (<[la:=lb]> seen) ⊆ dom s →
            ∃ r s', deepEqual fuel h x y s = Some (r, s') ∧ dom s ⊆ dom s').
  { intros x y s Hx Hy Hs. apply IH; [done..|].
    pose proof (unseen_mono h _ _ Hs). lia. }
  assert (Hgrow : dom seen ⊆ dom (<[la:=lb]> seen)) by (rewrite dom_insert_L; set_solver).
  destruct oa, ob; simplify_eq/=; try done.
  - case_bool_decide; simpl; [|by eauto].
    destruct (every_index_total h _ _ Hcmp elems elems0 (<[la:=lb]> seen))
      as (r & s' & -> & Hs'); [done..|]. exists r, s'. split; [done|set_solver].
  - eauto.
  - eauto.
  - case_bool_decide; simpl; [|by eauto].
    destruct (every_element_total h _ _ Hcmp elems elems0 (<[la:=lb]> seen))
      as (r & s' & -> & Hs'); [done..|]. exists r, s'. split; [done|set_solver].
  - case_bool_decide; simpl; [|by eauto].
    destruct (every_entry_total h _ _ Hcmp entries entries0 (<[la:=lb]> seen))
      as (r & s' & -> & Hs'); [done..|]. exists r, s'. split; [done|set_solver].
  - destruct (every_key_total h _ _ Hcmp proto_id0 props props0 (keys props) (<[la:=lb]> seen))
      as ([] & s' & -> & Hs'); [done..| |];
      eexists _, s'; (split; [done|set_solver]).
Qed.

Lemma deepEqual_total h a b :
  heap_ok h → value_ok h a → value_ok h b →
  ∃ r seen', deepEqual (S (length (objects h))) h a b ∅ = Some (r, seen').
Proof.
  intros Hh Ha Hb.
  destruct (deepEqual_total_from (S (length (objects h))) h Hh a b ∅) as (r & s & -> & _); eauto.
  unfold unseen. rewrite dom_empty_L, difference_empty_L, size_set_seq. lia.
Qed.

(** * Keys of a record *)

Lemma keys_own_property ps k : k ∈ keys ps → is_Some (own_property ps k).
Proof.
  unfold keys, enumerable_props. intros Hk.
  apply list_elem_of_fmap in Hk as (q & -> & Hq).
  apply list_elem_of_In, filter_In in Hq as [Hq _]. apply list_elem_of_In in Hq.
  induction Hq as [q ps|q q' ps _ IH]; simpl.
  - rewrite decide_True by done. eauto.
  - case_decide; eauto.
Qed.

Lemma keys_has_property h p ps k : k ∈ keys ps → has_property h p ps k = true.
Proof.
  intros Hk. unfold has_property.
  by destruct (keys_own_property ps k Hk) as [q ->].
Qed.

(** * Shallow structures follow the rule *)

Lemma primitive_compare fuel h x y (s : memo) :
  0 < fuel → primitive x → deepEqual fuel h x y s = Some (object_is x y, s).
Proof.
  intros Hfuel Hx. destruct fuel; [lia|]. cbn [deepEqual].
  destruct (object_is x y); [done|]. by destruct x.
Qed.

Lemma object_is_true x y : object_is x y = true ↔ x = y.
Proof. unfold object_is. by rewrite bool_decide_eq_true. Qed.

Section shallow_loops.
Variable h : heap.
Variable cmp : value → value → memo → verdict.
Hypothesis cmp_primitive : ∀ x y (s : memo),
  primitive x → cmp x y s = Some (object_is x y, s).

Lemma every_index_shallow xs ys (s : memo) :
  Forall primitive xs → length xs = length ys →
  ∃ r, every_index cmp xs ys s = Some (r, s) ∧ (r = true ↔ xs = ys).
Proof.
  intros Hxs. revert ys.
  induction Hxs as [|x xs Hx _ IH]; intros [|y ys] Hlen; simplify_eq/=.
  { by exists true. }
  rewrite cmp_primitive by done.
  destruct (object_is x y) eqn:Hxy.
  - apply object_is_true in Hxy as ->.
    destruct (IH ys) as (r & -> & Hr); [done|]. exists r. split; [done|]. naive_solver.
  - exists false. split; [done|]. split; [done|]. intros [= -> _].
    unfold object_is in Hxy. by rewrite bool_decide_eq_true_2 in Hxy.
Qed.

Lemma some_element_shallow x bs (s : memo) :
  primitive x →
  ∃ r, some_element cmp x bs s = Some (r, s) ∧ (r = true ↔ x ∈ bs).
Proof.
  intros Hx. induction bs as [|y bs IH]; simpl.
  - exists false. split; [done|]. split; [done|]. by intros ?%elem_of_nil.
  - rewrite cmp_primitive by done. destruct (object_is x y) eqn:Hxy.
    + apply object_is_true in Hxy as ->. exists true. split; [done|]. split; [|done]. by left.
    + destruct IH as (r & -> & Hr). exists r. split; [done|].
      rewrite Hr, elem_of_cons. split; [by right|]. intros [->|]; [|done].
      unfold object_is in Hxy. by rewrite bool_decide_eq_true_2 in Hxy.
Qed.

Lemma every_element_shallow xs bs (s : memo) :
  Forall primitive xs →
  ∃ r, every_element cmp xs bs s = Some (r, s) ∧ (r = true ↔ ∀ x, x ∈ xs → x ∈ bs).
Proof.
  induction 1 as [|x xs Hx _ IH]; simpl.
  - exists true. split; [done|]. split; [|done]. by intros _ x ?%elem_of_nil.
  - destruct (some_element_shallow x bs s Hx) as ([] & -> & Hr).
    + destruct IH as (r & -> & Hr'). exists r. split; [done|].
      rewrite Hr'. setoid_rewrite elem_of_cons. naive_solver.
    + exists false. split; [done|]. split; [done|]. intros Hall.
      apply Hr, Hall. by left.
Qed.

Lemma entry_equal_shallow e f (s : memo) :
  primitive e.1 → primitive e.2 →
  ∃ r, entry_equal cmp e f s = Some (r, s) ∧ (r = true ↔ e = f).
Proof.
  intros H1 H2. unfold entry_equal. rewrite cmp_primitive by done.
  destruct e as [ek ev], f as [fk fv]; simpl in *.
  destruct (object_is ek fk) eqn:Hk.
  - rewrite cmp_primitive by done. exists (object_is ev fv). split; [done|].
    apply object_is_true in Hk as ->. rewrite object_is_true. naive_solver.
  - exists false. split; [done|]. split; [done|]. intros [= -> _].
    unfold object_is in Hk. by rewrite bool_decide_eq_true_2 in Hk.
Qed.

Lemma some_entry_shallow e bs (s : memo) :
  primitive e.1 → primitive e.2 →
  ∃ r, some_entry cmp e bs s = Some (r, s) ∧ (r = true ↔ e ∈ bs).
Proof.
  intros H1 H2. induction bs as [|f bs IH]; simpl.
  - exists false. split; [done|]. split; [done|]. by intros ?%elem_of_nil.
  - destruct (entry_equal_shallow e f s H1 H2) as ([] & -> & Hr).
    + exists true. split; [done|]. split; [|done]. intros _.
      destruct Hr as [Hr _]. rewrite <- (Hr eq_refl). by left.
    + destruct IH as (r & -> & Hr'). exists r. split; [done|].
      rewrite Hr', elem_of_cons. split; [by right|]. intros [->|]; [|done].
      by destruct Hr as [_ ?%symmetry].
Qed.

Lemma every_entry_shallow xs bs (s : memo) :
  Forall (λ e, primitive e.1 ∧ primitive e.2) xs →
  ∃ r, every_entry cmp xs bs s = Some (r, s) ∧ (r = true ↔ ∀ e, e ∈ xs → e ∈ bs).
Proof.
  induction 1 as [|x xs [Hx1 Hx2] _ IH]; simpl.
  - exists true. split; [done|]. split; [|done]. by intros _ x ?%elem_of_nil.
  - destruct (some_entry_shallow x bs s Hx1 Hx2) as ([] & -> & Hr).
    + destruct IH as (r & -> & Hr'). exists r. split; [done|].
      rewrite Hr'. setoid_rewrite elem_of_cons. naive_solver.
    + exists false. split; [done|]. split; [done|]. intros Hall.
      apply Hr, Hall. by left.
Qed.

Lemma every_key_shallow p psa psb ks (s : memo) :
  (∀ k, k ∈ ks → primitive (get h p psa k)) →
  ∃ r, every_key cmp h p psa psb ks s = Some (r, s) ∧
       (r = true ↔ ∀ k, k ∈ ks →
          has_property h p psb k = true ∧ get h p psa k = get h p psb k).
Proof.
  induction ks as [|k ks IH]; intros Hks; simpl.
  - exists true. split; [done|]. split; [|done]. by intros _ x ?%elem_of_nil.
  - destruct (has_property h p psb k) eqn:Hin.
    + rewrite cmp_primitive by (apply Hks; by left).
      destruct (object_is _ _) eqn:Hv.
      * apply object_is_true in Hv.
        destruct IH as (r & -> & Hr); [intros; apply Hks; by right|].
        exists r. split; [done|]. rewrite Hr. setoid_rewrite elem_of_cons. naive_solver.
      * exists false. split; [done|]. split; [done|]. intros Hall.
        destruct (Hall k) as [_ Heq]; [by left|].
        apply object_is_true in Heq. congruence.
    + exists false. split; [done|]. split; [done|]. intros Hall.
      destruct (Hall k) as [? _]; [by left|]. congruence.
Qed.
End shallow_loops.

Lemma own_property_elem ps k q : own_property ps k = Some q → q ∈ ps ∧ pkey q = k.
Proof.
  induction ps as [|p ps IH]; simpl; [done|].
  case_decide.
  - intros [= <-]. split; [by left|done].
  - intros [? ?]%IH. split; [by right|done].
Qed.

Lemma get_primitive h p ps k :
  Forall (λ q, primitive (pvalue q)) ps → k ∈ keys ps → primitive (get h p ps k).
Proof.
  intros Hps Hk. unfold get.
  destruct (keys_own_property ps k Hk) as [q Hq]. rewrite Hq.
  apply own_property_elem in Hq as [Hq _].
  by eapply Forall_forall in Hps.
Qed.

Lemma included_same_length {A} (xs ys : list A) :
  NoDup xs → length xs = length ys → (∀ x, x ∈ xs → x ∈ ys) → ∀ y, y ∈ ys → y ∈ xs.
Proof.
  intros Hnd Hlen Hsub y Hy.
  assert (xs ≡ₚ ys) as Hperm.
  { apply submseteq_length_Permutation; [by apply NoDup_submseteq|lia]. }
  by rewrite Hperm.
Qed.

(** The comparator on two different shallow objects of the heap follows the
    rule. *)
Lemma shallow_equal h la lb oa ob :
  objects h !! la = Some oa → objects h !! lb = Some ob → la ≠ lb →
  shallow oa → distinct_keys ob → own_keys_only h (VRef la) (VRef lb) →
  ∃ r, equal h (VRef la) (VRef lb) = Some r ∧ (r = true ↔ rule h oa ob).
Proof.
  intros Hoa Hob Hne Hsh Hdk Hown. unfold equal. cbn [deepEqual]. unfold object_is.
  rewrite bool_decide_eq_false_2 by congruence. rewrite Hoa, Hob.
  assert (0 < length (objects h)) as Hpos by (apply lookup_lt_Some in Hoa; lia).
  pose proof (λ x y (s : memo), primitive_compare (length (objects h)) h x y s Hpos) as Hcmp.
  case_bool_decide as Hproto; cbn [negb].
  2:{ exists false. split; [done|]. split; [done|]. intros Hr.
      destruct oa, ob; simpl in *; try done. by destruct Hr as [-> _]. }
  rewrite lookup_empty.
  destruct oa, ob; simpl in Hproto, Hsh, Hdk; try done; simpl.
  - case_bool_decide as Hlen; cbn [negb].
    + destruct (every_index_shallow _ Hcmp elems elems0 (<[la:=lb]> ∅)) as (r & -> & Hr); [done..|].
      exists r. split; [done|]. rewrite Hr. split; [by intros ->|].
      intros [_ Hi]. by apply list_eq.
    + exists false. split; [done|]. naive_solver.
  - destruct time as [ta|], time0 as [tb|]; simpl; try (exists false; naive_solver).
    exists (bool_decide (ta = tb)). split; [done|].
    rewrite bool_decide_eq_true. naive_solver.
  - eexists. split; [done|].
    rewrite andb_true_iff, !bool_decide_eq_true. done.
  - destruct Hsh as [Hprim _]. case_bool_decide as Hlen; cbn [negb].
    + destruct (every_element_shallow _ Hcmp elems elems0 (<[la:=lb]> ∅)) as (r & -> & Hr); [done|].
      exists r. split; [done|]. rewrite Hr. naive_solver.
    + exists false. split; [done|]. naive_solver.
  - destruct Hsh as [Hprim _]. case_bool_decide as Hlen; cbn [negb].
    + destruct (every_entry_shallow _ Hcmp entries entries0 (<[la:=lb]> ∅)) as (r & -> & Hr); [done|].
      exists r. split; [done|]. rewrite Hr. naive_solver.
    + exists false. split; [done|]. naive_solver.
  - destruct Hsh as [Hprim Hnd]. simplify_eq.
    destruct (every_key_shallow h _ Hcmp proto_id0 props props0 (keys props) (<[la:=lb]> ∅))
      as (r & -> & Hr); [intros; by apply get_primitive|].
    specialize (Hown la lb _ _ _ _ _ _ eq_refl eq_refl Hoa Hob).
    destruct r.
    + destruct Hr as [Hr _]. specialize (Hr eq_refl).
      exists (bool_decide (length (keys props) = length (keys props0))). split; [done|].
      rewrite bool_decide_eq_true. split.
      * intros Hlen. split; [done|]. split; [|intros k Hk; by apply Hr].
        intros k. split; [intros Hk; apply Hown; [done|by apply Hr]|].
        apply included_same_length; [done..|].
        intros k' Hk'. apply Hown; [done|by apply Hr].
      * intros (_ & Hkeys & _). by apply Permutation_length, NoDup_Permutation.
    + exists false. split; [done|]. split; [done|].
      intros (_ & Hkeys & Hvals). apply Hr. intros k Hk. split; [|by apply Hvals].
      apply keys_has_property. by apply Hkeys.
Qed.

(** * The memo only grows *)

Section grow_loops.
Variable cmp : value → value → memo → verdict.
Hypothesis cmp_grows : ∀ x y (s : memo) r s', cmp x y s = Some (r, s') → s ⊆ s'.

Lemma every_index_grows xs ys (s : memo) r s' :
  every_index cmp xs ys s = Some (r, s') → s ⊆ s'.
Proof.
  revert ys s. induction xs as [|x xs IH]; intros [|y ys] s; simpl;
    try by intros [= _ <-].
  destruct (cmp x y s) as [[[] s1]|] eqn:Hc; [|by intros [= _ <-]; eauto|done].
  intros Hr. etrans; [by eapply cmp_grows|by eapply IH].
Qed.

Lemma some_element_grows av bs (s : memo) r s' :
  some_element cmp av bs s = Some (r, s') → s ⊆ s'.
Proof.
  revert s. induction bs as [|y ys IH]; intros s; simpl; [by intros [= _ <-]|].
  destruct (cmp av y s) as [[[] s1]|] eqn:Hc; [by intros [= _ <-]; eauto| |done].
  intros Hr. etrans; [by eapply cmp_grows|by eapply IH].
Qed.

Lemma every_element_grows xs bs (s : memo) r s' :
  every_element cmp xs bs s = Some (r, s') → s ⊆ s'.
Proof.
  revert s. induction xs as [|x xs IH]; intros s; simpl; [by intros [= _ <-]|].
  destruct (some_element cmp x bs s) as [[[] s1]|] eqn:Hc;
    [|by intros [= _ <-]; eapply some_element_grows|done].
  intros Hr. etrans; [by eapply some_element_grows|by eapply IH].
Qed.

Lemma entry_equal_grows ea eb (s : memo) r s' :
  entry_equal cmp ea eb s = Some (r, s') → s ⊆ s'.
Proof.
  unfold entry_equal.
  destruct (cmp ea.1 eb.1 s) as [[[] s1]|] eqn:Hc; [|by intros [= _ <-]; eauto|done].
  intros Hr. etrans; [by eapply cmp_grows|by eapply cmp_grows].
Qed.

Lemma some_entry_grows ea bs (s : memo) r s' :
  some_entry cmp ea bs s = Some (r, s') → s ⊆ s'.
Proof.
  revert s. induction bs as [|y ys IH]; intros s; simpl; [by intros [= _ <-]|].
  destruct (entry_equal cmp ea y s) as [[[] s1]|] eqn:Hc;
    [by intros [= _ <-]; eapply entry_equal_grows| |done].
  intros Hr. etrans; [by eapply entry_equal_grows|by eapply IH].
Qed.

Lemma every_entry_grows xs bs (s : memo) r s' :
  every_entry cmp xs bs s = Some (r, s') → s ⊆ s'.
Proof.
  revert s. induction xs as [|x xs IH]; intros s; simpl; [by intros [= _ <-]|].
  destruct (some_entry cmp x bs s) as [[[] s1]|] eqn:Hc;
    [|by intros [= _ <-]; eapply some_entry_grows|done].
  intros Hr. etrans; [by eapply some_entry_grows|by eapply IH].
Qed.

Lemma every_key_grows h p psa psb ks (s : memo) r s' :
  every_key cmp h p psa psb ks s = Some (r, s') → s ⊆ s'.
Proof.
  revert s. induction ks as [|k ks IH]; intros s; simpl; [by intros [= _ <-]|].
  destruct (has_property h p psb k); [|by intros [= _ <-]].
  destruct (cmp _ _ s) as [[[] s1]|] eqn:Hc; [|by intros [= _ <-]; eauto|done].
  intros Hr. etrans; [by eapply cmp_grows|by eapply IH].
Qed.
End grow_loops.

Lemma deepEqual_grows fuel h a b (s : memo) r s' :
  deepEqual fuel h a b s = Some (r, s') → s ⊆ s'.
Proof.
  revert a b s r s'. induction fuel as [|fuel IH]; intros a b s r s'; [done|].
  cbn [deepEqual]. destruct (object_is a b); [by intros [= _ <-]|].
  destruct a as [| | | | | | |la]; try by intros [= _ <-].
  destruct b as [| | | | | | |lb]; try by intros [= _ <-].
  destruct (objects h !! la) as [oa|]; [|done].
  destruct (objects h !! lb) as [ob|]; [|done].
  destruct (negb _); [by intros [= _ <-]|].
  destruct (s !! la) as [c|] eqn:Hc; [by intros [= _ <-]|].
  assert (s ⊆ <[la:=lb]> s) as Hgrow by (by apply insert_subseteq).
  destruct oa, ob; try done.
  - destruct (negb _); [by intros [= _ <-]|].
    intros Hr. etrans; [done|]. by eapply every_index_grows.
  - by intros [= _ <-].
  - by intros [= _ <-].
  - destruct (negb _); [by intros [= _ <-]|].
    intros Hr. etrans; [done|]. by eapply every_element_grows.
  - destruct (negb _); [by intros [= _ <-]|].
    intros Hr. etrans; [done|]. by eapply every_entry_grows.
  - destruct (every_key _ _ _ _ _ _ _) as [[[] s1]|] eqn:Hk; [| |done].
    + intros [= _ <-]. etrans; [done|]. by eapply every_key_grows.
    + intros [= _ <-]. etrans; [done|]. by eapply every_key_grows.
Qed.

(** * What a true answer means *)

Lemma paired_mono (s s' : memo) x y : s ⊆ s' → paired s x y → paired s' x y.
Proof.
  intros Hs [->|(la & lb & -> & -> & Hl)]; [by left|].
  right. exists la, lb. split_and!; [done..|]. by eapply lookup_weaken.
Qed.

Lemma obj_agrees_mono h (s s' : memo) oa ob :
  s ⊆ s' → obj_agrees h s oa ob → obj_agrees h s' oa ob.
Proof.
  intros Hs. destruct oa, ob; simpl; try done.
  - intros Hall. eapply Forall2_impl; [done|]. intros x y. by apply paired_mono.
  - intros (? & ? & Hall). split_and!; [done..|].
    eapply Forall_impl; [done|]. intros k [? ?]. split; [done|]. by eapply paired_mono.
Qed.

Lemma agrees_at_mono h (s s' : memo) la lb :
  s ⊆ s' → agrees_at h s la lb → agrees_at h s' la lb.
Proof.
  intros Hs (oa & ob & ? & ? & ?). exists oa, ob. split_and!; [done..|].
  by eapply obj_agrees_mono.
Qed.

Lemma added_agree_refl h (s : memo) : added_agree h s s.
Proof. intros la lb H1 H2. congruence. Qed.

Lemma added_agree_trans h (s s1 s2 : memo) :
  s1 ⊆ s2 → added_agree h s s1 → added_agree h s1 s2 → added_agree h s s2.
Proof.
  intros H12 Ha Hb la lb Hl Hnone.
  destruct (s1 !! la) as [lb'|] eqn:H1.
  - pose proof (lookup_weaken _ _ _ _ H1 H12) as H2.
    assert (lb' = lb) as -> by congruence.
    eapply agrees_at_mono; [done|]. by apply Ha.
  - by apply Hb.
Qed.

(** ** Values in which no Set or Map holds an object *)

Lemma tame_tame_value h v : tame h → tame_value h v.
Proof. intros Htame l o _ Hl. by apply (Htame l o). Qed.

Lemma inside_here h l : inside h (VRef l) l.
Proof. by exists []. Qed.

Lemma inside_member h la oa e x l :
  objects h !! la = Some oa → member h oa e = Some x →
  inside h x l → inside h (VRef la) l.
Proof.
  intros Hoa Hx [path Hp]. exists (e :: path). simpl. by rewrite Hoa, Hx.
Qed.

Lemma member_key h p ps sy k :
  k ∈ keys ps → member h (ORecord p ps sy) (Key k) = Some (get h p ps k).
Proof. intros Hk. simpl. by rewrite (keys_has_property h p ps k Hk). Qed.

Lemma tame_value_member h la oa e x :
  objects h !! la = Some oa → member h oa e = Some x →
  tame_value h (VRef la) → tame_value h x.
Proof.
  intros Hoa Hx Htame l o Hin Hl. apply (Htame l o); [|done]. by eapply inside_member.
Qed.

Lemma tame_value_elems h la ea :
  objects h !! la = Some (OArray ea) → tame_value h (VRef la) →
  Forall (tame_value h) ea.
Proof.
  intros Hoa Htame. apply Forall_lookup. intros i x Hx.
  by apply (tame_value_member h la (OArray ea) (Index i)).
Qed.

Lemma tame_value_props h la p ps sy :
  objects h !! la = Some (ORecord p ps sy) → tame_value h (VRef la) →
  Forall (λ k, tame_value h (get h p ps k)) (keys ps).
Proof.
  intros Hoa Htame. apply Forall_forall. intros k Hk.
  apply (tame_value_member h la (ORecord p ps sy) (Key k)); [done| |done].
  by apply member_key.
Qed.


Section sound_loops.
Variable h : heap.
Variable cmp : value → value → memo → verdict.
Variable Q : value → Prop.
Hypothesis cmp_sound : ∀ x y (s s' : memo), Q x →
  cmp x y s = Some (true, s') → s ⊆ s' ∧ paired s' x y ∧ added_agree h s s'.
Hypothesis cmp_primitive : ∀ x y (s : memo) r s',
  primitive x → cmp x y s = Some (r, s') → r = object_is x y ∧ s' = s.

Lemma every_index_sound xs ys (s s' : memo) :
  Forall Q xs → length xs = length ys →
  every_index cmp xs ys s = Some (true, s') →
  s ⊆ s' ∧ Forall2 (paired s') xs ys ∧ added_agree h s s'.
Proof.
  intros HQ. revert ys s.
  induction HQ as [|x xs Hx _ IH]; intros [|y ys] s Hlen; simplify_eq/=.
  { intros [= <-]. split_and!; [done|constructor|apply added_agree_refl]. }
  destruct (cmp x y s) as [[[] s1]|] eqn:Hc; [|done..].
  intros Hr. destruct (cmp_sound _ _ _ _ Hx Hc) as (H1 & Hp & Ha).
  destruct (IH ys s1 Hlen Hr) as (H2 & Hall & Hb).
  split_and!; [by etrans| |by eapply added_agree_trans].
  constructor; [by eapply paired_mono|done].
Qed.

Lemma every_key_sound p psa psb ks (s s' : memo) :
  Forall (λ k, Q (get h p psa k)) ks →
  every_key cmp h p psa psb ks s = Some (true, s') →
  s ⊆ s' ∧
  Forall (λ k, has_property h p psb k = true ∧
               paired s' (get h p psa k) (get h p psb k)) ks ∧
  added_agree h s s'.
Proof.
  intros HQ. revert s. induction HQ as [|k ks Hk _ IH]; intros s; simpl.
  { intros [= <-]. split_and!; [done|constructor|apply added_agree_refl]. }
  destruct (has_property h p psb k) eqn:Hin; [|done].
  destruct (cmp _ _ s) as [[[] s1]|] eqn:Hc; [|done..].
  intros Hr. destruct (cmp_sound _ _ _ _ Hk Hc) as (H1 & Hp & Ha).
  destruct (IH s1 Hr) as (H2 & Hall & Hb).
  split_and!; [by etrans| |by eapply added_agree_trans].
  constructor; [|done]. split; [done|]. by eapply paired_mono.
Qed.

Lemma some_element_primitive x bs (s : memo) r s' :
  primitive x → some_element cmp x bs s = Some (r, s') →
  s' = s ∧ (r = true → x ∈ bs).
Proof.
  intros Hx. induction bs as [|y bs IH]; simpl; [by intros [= <- <-]|].
  destruct (cmp x y s) as [[r1 s1]|] eqn:Hc; [|done].
  destruct (cmp_primitive _ _ _ _ _ Hx Hc) as [-> ->].
  destruct (object_is x y) eqn:Hxy.
  - intros [= <- <-]. split; [done|]. intros _.
    unfold object_is in Hxy. apply bool_decide_eq_true in Hxy as ->. by left.
  - intros Hr. destruct (IH Hr) as [-> Hin]. split; [done|]. intros ?. right. by apply Hin.
Qed.

Lemma every_element_primitive xs bs (s : memo) r s' :
  Forall primitive xs → every_element cmp xs bs s = Some (r, s') →
  s' = s ∧ (r = true → ∀ x, x ∈ xs → x ∈ bs).
Proof.
  induction 1 as [|x xs Hx _ IH]; simpl.
  { intros [= <- <-]. split; [done|]. by intros _ x ?%elem_of_nil. }
  destruct (some_element cmp x bs s) as [[r1 s1]|] eqn:Hc; [|done].
  destruct (some_element_primitive _ _ _ _ _ Hx Hc) as [-> Hin].
  destruct r1; [|by intros [= <- <-]].
  intros Hr. destruct (IH Hr) as [-> Hall]. split; [done|].
  intros Htrue y [->|Hy]%elem_of_cons; [by apply Hin|by apply Hall].
Qed.

Lemma entry_equal_primitive e f (s : memo) r s' :
  primitive e.1 → primitive e.2 → entry_equal cmp e f s = Some (r, s') →
  s' = s ∧ (r = true → e = f).
Proof.
  intros H1 H2. unfold entry_equal.
  destruct (cmp e.1 f.1 s) as [[r1 s1]|] eqn:Hc; [|done].
  destruct (cmp_primitive _ _ _ _ _ H1 Hc) as [-> ->].
  destruct (object_is e.1 f.1) eqn:Hk; [|by intros [= <- <-]].
  intros Hv. destruct (cmp_primitive _ _ _ _ _ H2 Hv) as [-> ->]. split; [done|].
  unfold object_is in *. intros Hv'.
  apply bool_decide_eq_true in Hk, Hv'. destruct e, f; simpl in *; congruence.
Qed.

Lemma some_entry_primitive e bs (s : memo) r s' :
  primitive e.1 → primitive e.2 → some_entry cmp e bs s = Some (r, s') →
  s' = s ∧ (r = true → e ∈ bs).
Proof.
  intros H1 H2. induction bs as [|f bs IH]; simpl; [by intros [= <- <-]|].
  destruct (entry_equal cmp e f s) as [[r1 s1]|] eqn:Hc; [|done].
  destruct (entry_equal_primitive _ _ _ _ _ H1 H2 Hc) as [-> Heq].
  destruct r1.
  - intros [= <- <-]. split; [done|]. intros _. rewrite (Heq eq_refl). by left.
  - intros Hr. destruct (IH Hr) as [-> Hin]. split; [done|]. intros ?. right. by apply Hin.
Qed.

Lemma every_entry_primitive xs bs (s : memo) r s' :
  Forall (λ e, primitive e.1 ∧ primitive e.2) xs →
  every_entry cmp xs bs s = Some (r, s') →
  s' = s ∧ (r = true → ∀ e, e ∈ xs → e ∈ bs).
Proof.
  induction 1 as [|x xs [Hx1 Hx2] _ IH]; simpl.
  { intros [= <- <-]. split; [done|]. by intros _ x ?%elem_of_nil. }
  destruct (some_entry cmp x bs s) as [[r1 s1]|] eqn:Hc; [|done].
  destruct (some_entry_primitive _ _ _ _ _ Hx1 Hx2 Hc) as [-> Hin].
  destruct r1; [|by intros [= <- <-]].
  intros Hr. destruct (IH Hr) as [-> Hall]. split; [done|].
  intros Htrue y [->|Hy]%elem_of_cons; [by apply Hin|by apply Hall].
Qed.
End sound_loops.

Lemma primitive_verdict fuel h x y (s : memo) r s' :
  primitive x → deepEqual fuel h x y s = Some (r, s') → r = object_is x y ∧ s' = s.
Proof.
  intros Hx. destruct fuel; [done|]. rewrite primitive_compare by (lia || done).
  by intros [= <- <-].
Qed.

(** A true answer leaves a memo under which the two values are paired and
    every pair it added agrees. *)
Lemma deepEqual_sound fuel h :
  ∀ a b (s s' : memo), tame_value h a →
  deepEqual fuel h a b s = Some (true, s') →
  s ⊆ s' ∧ paired s' a b ∧ added_agree h s s'.
Proof.
  induction fuel as [|fuel IH]; intros a b s s' Htame; [done|].
  cbn [deepEqual]. unfold object_is. case_bool_decide as Hid.
  { intros [= <-]. split_and!; [done|by left|apply added_agree_refl]. }
  destruct a as [| | | | | | |la]; try done.
  destruct b as [| | | | | | |lb]; try done.
  destruct (objects h !! la) as [oa|] eqn:Hoa; [|done].
  destruct (objects h !! lb) as [ob|] eqn:Hob; [|done].
  case_bool_decide as Hproto; cbn [negb]; [|done].
  destruct (s !! la) as [c|] eqn:Hc.
  { intros [= Hcb <-]. apply bool_decide_eq_true in Hcb as ->.
    split_and!; [done| |apply added_agree_refl]. right. by exists la, lb. }
  assert (s ⊆ <[la:=lb]> s) as Hgrow by (by apply insert_subseteq).
  pose proof (primitive_verdict fuel h) as Hprim.
  assert (Hfinish : ∀ s', <[la:=lb]> s ⊆ s' → added_agree h (<[la:=lb]> s) s' →
            obj_agrees h s' oa ob →
            s ⊆ s' ∧ paired s' (VRef la) (VRef lb) ∧ added_agree h s s').
  { intros s2 Hs2 Hadd Hag.
    assert (s2 !! la = Some lb) as Hla.
    { eapply lookup_weaken; [|done]. by rewrite lookup_insert_eq. }
    split_and!; [by etrans|right; by exists la, lb|].
    intros la' lb' Hl' Hnone. destruct (decide (la' = la)) as [->|Hne].
    - assert (lb' = lb) as -> by congruence. by exists oa, ob.
    - apply Hadd; [done|]. by rewrite lookup_insert_ne. }
  pose proof (Htame la oa (inside_here h la) Hoa) as Hhere.
  destruct oa, ob; try done; simpl in Hproto, Hhere.
  - case_bool_decide as Hlen; cbn [negb]; [|done].
    intros Hr.
    apply (every_index_sound h _ (tame_value h) IH) in Hr as (H1 & Hall & Hadd);
      [|by eapply tame_value_elems|done].
    by apply Hfinish.
  - intros [= Ht <-]. apply Hfinish; [done|apply added_agree_refl|done].
  - intros [= Ht <-]. apply Hfinish; [done|apply added_agree_refl|].
    apply andb_true_iff in Ht as [?%bool_decide_eq_true ?%bool_decide_eq_true]. done.
  - case_bool_decide as Hlen; cbn [negb]; [|done].
    intros Hr. apply every_element_primitive in Hr as [-> Hall]; [|done..].
    apply Hfinish; [done|apply added_agree_refl|]. split; [done|]. by apply Hall.
  - case_bool_decide as Hlen; cbn [negb]; [|done].
    intros Hr. apply every_entry_primitive in Hr as [-> Hall]; [|done..].
    apply Hfinish; [done|apply added_agree_refl|]. split; [done|]. by apply Hall.
  - destruct (every_key _ _ _ _ _ _ _) as [[[] s1]|] eqn:Hk; [|done..].
    intros [= Hlen <-]. apply bool_decide_eq_true in Hlen.
    apply (every_key_sound h _ (tame_value h) IH) in Hk as (H1 & Hall & Hadd);
      [|by eapply tame_value_props].
    apply Hfinish; [done..|]. simplify_eq. done.
Qed.

Lemma every_index_agree cmp (Q : value → Prop) (φ s0 : memo) xs ys (s : memo) :
  (∀ x y (s : memo), Q x → paired φ x y → s0 ⊆ s → s ⊆ φ →
     ∃ s', cmp x y s = Some (true, s') ∧ s ⊆ s' ∧ s' ⊆ φ) →
  Forall Q xs → Forall2 (paired φ) xs ys → s0 ⊆ s → s ⊆ φ →
  ∃ s', every_index cmp xs ys s = Some (true, s') ∧ s ⊆ s' ∧ s' ⊆ φ.
Proof.
  intros Hcmp HQ Hxy. revert s HQ.
  induction Hxy as [|x y xs ys Hp _ IH]; intros s HQ Hs0 Hs; simpl; [by eauto|].
  apply Forall_cons in HQ as [Hx HQ].
  destruct (Hcmp x y s) as (s' & -> & Hs' & Hφ); [done..|].
  destruct (IH s') as (s'' & -> & Hs'' & Hφ'); [done|by etrans|done|].
  exists s''. split_and!; [done|by etrans|done].
Qed.

Lemma every_key_agree h cmp (Q : value → Prop) (φ s0 : memo) p psa psb ks (s : memo) :
  (∀ x y (s : memo), Q x → paired φ x y → s0 ⊆ s → s ⊆ φ →
     ∃ s', cmp x y s = Some (true, s') ∧ s ⊆ s' ∧ s' ⊆ φ) →
  Forall (λ k, Q (get h p psa k)) ks →
  Forall (λ k, has_property h p psb k = true ∧
               paired φ (get h p psa k) (get h p psb k)) ks →
  s0 ⊆ s → s ⊆ φ →
  ∃ s', every_key cmp h p psa psb ks s = Some (true, s') ∧ s ⊆ s' ∧ s' ⊆ φ.
Proof.
  intros Hcmp HQ Hks. revert s HQ.
  induction Hks as [|k ks [Hk Hp] _ IH]; intros s HQ Hs0 Hs; simpl; [by eauto|].
  apply Forall_cons in HQ as [Hx HQ]. rewrite Hk.
  destruct (Hcmp _ _ s Hx Hp) as (s' & -> & Hs' & Hφ); [done..|].
  destruct (IH s') as (s'' & -> & Hs'' & Hφ'); [done|by etrans|done|].
  exists s''. split_and!; [done|by etrans|done].
Qed.

(** Two values paired by an agreement compare equal. *)
Lemma deepEqual_agree_from fuel h (φ : memo) :
  agreement h φ → ∀ a b (seen : memo), tame_value h a →
  paired φ a b → seen ⊆ φ → unseen h seen < fuel →
  ∃ seen', deepEqual fuel h a b seen = Some (true, seen') ∧ seen ⊆ seen' ∧ seen' ⊆ φ.
Proof.
  intros Hm. induction fuel as [|fuel IH]; intros a b seen Htame Hab Hseen Hfuel; [lia|].
  cbn [deepEqual]. unfold object_is. case_bool_decide as Hid; [by eauto|].
  destruct Hab as [->|(la & lb & -> & -> & Hφ)]; [done|].
  destruct (Hm la lb Hφ) as (oa & ob & Hoa & Hob & Hag).
  rewrite Hoa, Hob.
  assert (getPrototypeOf oa = getPrototypeOf ob) as Hproto.
  { destruct oa, ob; simpl in *; try done. by destruct Hag as [-> _]. }
  rewrite bool_decide_eq_true_2 by done. cbn [negb].
  destruct (seen !! la) as [c|] eqn:Hc.
  { pose proof (lookup_weaken _ _ _ _ Hc Hseen) as Hc'.
    assert (c = lb) as -> by congruence.
    rewrite bool_decide_eq_true_2 by done. by eauto. }
  assert (la < length (objects h)) as Hla by (by eapply lookup_lt_Some).
  pose proof (unseen_insert h seen la lb Hla Hc) as Hlt.
  assert (seen ⊆ <[la:=lb]> seen) as Hgrow by (by apply insert_subseteq).
  assert (<[la:=lb]> seen ⊆ φ) as Hin by (by apply insert_subseteq_l).
  assert (Hcmp : ∀ x y (s : memo), tame_value h x → paired φ x y →
            <[la:=lb]> seen ⊆ s → s ⊆ φ →
            ∃ s', deepEqual fuel h x y s = Some (true, s') ∧ s ⊆ s' ∧ s' ⊆ φ).
  { intros x y s Hx Hxy Hs Hsφ. apply IH; [done..|].
    pose proof (unseen_mono h _ _ (subseteq_dom _ _ Hs)). lia. }
  assert (Hprim : ∀ x y (s : memo), primitive x →
            deepEqual fuel h x y s = Some (object_is x y, s)).
  { intros. apply primitive_compare; [lia|done]. }
  pose proof (Htame la oa (inside_here h la) Hoa) as Hhere.
  destruct oa, ob; simpl in Hag, Hhere; try done.
  - rewrite bool_decide_eq_true_2 by (by eapply Forall2_length). cbn [negb].
    destruct (every_index_agree _ (tame_value h) φ _ elems elems0 (<[la:=lb]> seen) Hcmp)
      as (s' & -> & Hs' & Hφ'); [by eapply tame_value_elems|done..|].
    exists s'. split_and!; [done|by etrans|done].
  - rewrite Hag. by eauto.
  - destruct Hag as [-> ->]. rewrite !bool_decide_eq_true_2 by done. by eauto.
  - destruct Hag as [Hlen Hall]. rewrite bool_decide_eq_true_2 by done. cbn [negb].
    destruct (every_element_shallow _ Hprim elems elems0 (<[la:=lb]> seen) Hhere)
      as (r & -> & Hr).
    rewrite (proj2 Hr Hall). by eauto.
  - destruct Hag as [Hlen Hall]. rewrite bool_decide_eq_true_2 by done. cbn [negb].
    destruct (every_entry_shallow _ Hprim entries entries0 (<[la:=lb]> seen) Hhere)
      as (r & -> & Hr).
    rewrite (proj2 Hr Hall). by eauto.
  - destruct Hag as (-> & Hlen & Hall).
    destruct (every_key_agree h _ (tame_value h) φ _ proto_id0 props props0 (keys props)
                (<[la:=lb]> seen) Hcmp)
      as (s' & -> & Hs' & Hφ'); [by eapply tame_value_props|done..|].
    rewrite bool_decide_eq_true_2 by done.
    exists s'. split_and!; [done|by etrans|done].
Qed.

Lemma loops_tame : tame Sample.loops.
Proof. intros [|[|[|l]]] o; simpl; [by intros [= <-]..|done]. Qed.

(** * Objects that face each other *)

Lemma faces_here h la lb : faces h (VRef la) (VRef lb) la lb.
Proof. by exists []. Qed.

Lemma faces_member h e la lb oa ob x y l l' :
  objects h !! la = Some oa → objects h !! lb = Some ob →
  member h oa e = Some x → member h ob e = Some y →
  faces h x y l l' → faces h (VRef la) (VRef lb) l l'.
Proof.
  intros Hoa Hob Hx Hy (path & Hp & Hq). exists (e :: path).
  simpl. by rewrite Hoa, Hob, Hx, Hy.
Qed.

Section faced_loops.
Variable h : heap.
Variable cmp : value → value → memo → verdict.
Variable Q : value → Prop.
Hypothesis cmp_faced : ∀ x y (s s' : memo), Q x →
  cmp x y s = Some (true, s') →
  s ⊆ s' ∧ ∀ la lb, s' !! la = Some lb → s !! la = None → faces h x y la lb.

Lemma every_index_faced xs ys (s s' : memo) :
  Forall Q xs →
  every_index cmp xs ys s = Some (true, s') →
  s ⊆ s' ∧ ∀ la lb, s' !! la = Some lb → s !! la = None →
    ∃ i x y, xs !! i = Some x ∧ ys !! i = Some y ∧ faces h x y la lb.
Proof.
  intros HQ. revert ys s. induction HQ as [|x xs Hx _ IH]; intros [|y ys] s; simpl;
    try (intros [= <-]; split; [done|]; intros; congruence).
  destruct (cmp x y s) as [[[] s1]|] eqn:Hc; [|done..].
  intros Hr. destruct (cmp_faced _ _ _ _ Hx Hc) as [H1 Hf].
  destruct (IH ys s1 Hr) as [H2 Hfs]. split; [by etrans|].
  intros la lb Hl Hnone. destruct (s1 !! la) as [lb1|] eqn:H1la.
  - pose proof (lookup_weaken _ _ _ _ H1la H2) as Hl'.
    assert (lb1 = lb) as -> by congruence.
    exists 0, x, y. split_and!; [done..|]. by apply Hf.
  - destruct (Hfs la lb Hl H1la) as (i & x' & y' & ? & ? & ?).
    by exists (S i), x', y'.
Qed.

Lemma every_key_faced p psa psb ks (s s' : memo) :
  Forall (λ k, Q (get h p psa k)) ks →
  every_key cmp h p psa psb ks s = Some (true, s') →
  s ⊆ s' ∧ ∀ la lb, s' !! la = Some lb → s !! la = None →
    ∃ k, k ∈ ks ∧ has_property h p psb k = true ∧
         faces h (get h p psa k) (get h p psb k) la lb.
Proof.
  intros HQ. revert s. induction HQ as [|k ks Hx _ IH]; intros s; simpl.
  { intros [= <-]. split; [done|]. intros; congruence. }
  destruct (has_property h p psb k) eqn:Hin; [|done].
  destruct (cmp _ _ s) as [[[] s1]|] eqn:Hc; [|done..].
  intros Hr. destruct (cmp_faced _ _ _ _ Hx Hc) as [H1 Hf].
  destruct (IH s1 Hr) as [H2 Hfs]. split; [by etrans|].
  intros la lb Hl Hnone. destruct (s1 !! la) as [lb1|] eqn:H1la.
  - pose proof (lookup_weaken _ _ _ _ H1la H2) as Hl'.
    assert (lb1 = lb) as -> by congruence.
    exists k. split_and!; [by left|done|]. by apply Hf.
  - destruct (Hfs la lb Hl H1la) as (k' & ? & ? & ?).
    exists k'. split_and!; [by right|done..].
Qed.
End faced_loops.

(** Whatever pair a true answer adds to the memo is a pair of objects that
    face each other in the two values compared. *)
Lemma deepEqual_faced fuel h :
  ∀ a b (s s' : memo), tame_value h a →
  deepEqual fuel h a b s = Some (true, s') →
  s ⊆ s' ∧ ∀ la lb, s' !! la = Some lb → s !! la = None → faces h a b la lb.
Proof.
  induction fuel as [|fuel IH]; intros a b s s' Htame; [done|].
  cbn [deepEqual]. unfold object_is. case_bool_decide as Hid.
  { intros [= <-]. split; [done|]. intros; congruence. }
  destruct a as [| | | | | | |la0]; try done.
  destruct b as [| | | | | | |lb0]; try done.
  destruct (objects h !! la0) as [oa|] eqn:Hoa; [|done].
  destruct (objects h !! lb0) as [ob|] eqn:Hob; [|done].
  case_bool_decide as Hproto; cbn [negb]; [|done].
  destruct (s !! la0) as [c|] eqn:Hc.
  { intros [= _ <-]. split; [done|]. intros; congruence. }
  assert (s ⊆ <[la0:=lb0]> s) as Hgrow by (by apply insert_subseteq).
  pose proof (primitive_verdict fuel h) as Hprim.
  assert (Hfinish : ∀ s' : memo, <[la0:=lb0]> s ⊆ s' →
            (∀ la lb, s' !! la = Some lb → <[la0:=lb0]> s !! la = None →
               ∃ e x y, member h oa e = Some x ∧ member h ob e = Some y ∧ faces h x y la lb) →
            s ⊆ s' ∧ ∀ la lb, s' !! la = Some lb → s !! la = None →
              faces h (VRef la0) (VRef lb0) la lb).
  { intros s2 Hs2 Hadd. split; [by etrans|]. intros la lb Hl Hnone.
    destruct (decide (la = la0)) as [->|Hne].
    - assert (s2 !! la0 = Some lb0) as Hla.
      { eapply lookup_weaken; [|done]. by rewrite lookup_insert_eq. }
      assert (lb = lb0) as -> by congruence. apply faces_here.
    - destruct (Hadd la lb Hl) as (e & x & y & Hx & Hy & Hf).
      { by rewrite lookup_insert_ne. }
      by eapply faces_member. }
  assert (Hnone : ∀ la lb, <[la0:=lb0]> s !! la = Some lb → <[la0:=lb0]> s !! la = None →
            ∃ e x y, member h oa e = Some x ∧ member h ob e = Some y ∧ faces h x y la lb)
    by (intros; congruence).
  pose proof (Htame la0 oa (inside_here h la0) Hoa) as Hhere.
  destruct oa, ob; try done; simpl in Hproto, Hhere.
  - case_bool_decide as Hlen; cbn [negb]; [|done].
    intros Hr.
    apply (every_index_faced h _ (tame_value h) IH) in Hr as [H1 Hf];
      [|by eapply tame_value_elems].
    apply Hfinish; [done|]. intros la lb Hl Hn.
    destruct (Hf la lb Hl Hn) as (i & x & y & ? & ? & ?). by exists (Index i), x, y.
  - intros [= Ht <-]. by apply Hfinish.
  - intros [= Ht <-]. by apply Hfinish.
  - case_bool_decide as Hlen; cbn [negb]; [|done].
    intros Hr. apply every_element_primitive in Hr as [-> _]; [|done..].
    by apply Hfinish.
  - case_bool_decide as Hlen; cbn [negb]; [|done].
    intros Hr. apply every_entry_primitive in Hr as [-> _]; [|done..].
    by apply Hfinish.
  - destruct (every_key _ _ _ _ _ _ _) as [[[] s1]|] eqn:Hk; [|done..].
    intros [= _ <-].
    apply (every_key_faced h _ (tame_value h) IH) in Hk as [H1 Hf];
      [|by eapply tame_value_props].
    apply Hfinish; [done|]. intros la lb Hl Hn.
    destruct (Hf la lb Hl Hn) as (k & Hk & Hin & Hface).
    exists (Key k), (get h proto_id props k), (get h proto_id props0 k).
    simplify_eq. simpl. rewrite Hin. by rewrite (keys_has_property h _ props k Hk).
Qed.

(** * Reading a pairing from right to left *)

Lemma lookup_invert (φ : memo) :
  (∀ la la' lb, φ !! la = Some lb → φ !! la' = Some lb → la = la') →
  ∀ la lb, invert φ !! lb = Some la ↔ φ !! la = Some lb.
Proof.
  intros Hinj la lb. unfold invert.
  rewrite <- elem_of_list_to_map.
  - rewrite list_elem_of_fmap. split.
    + intros ([la' lb'] & [= -> ->] & Hin). by apply elem_of_map_to_list.
    + intros Hl. exists (la, lb). split; [done|]. by apply elem_of_map_to_list.
  - rewrite <- list_fmap_compose.
    apply NoDup_fmap_2_strong; [|apply NoDup_map_to_list].
    intros [la1 lb1] [la2 lb2] H1%elem_of_map_to_list H2%elem_of_map_to_list Heq.
    simpl in Heq. subst lb2. f_equal. by eapply Hinj.
Qed.

Lemma time_strict_eq_sym ta tb : time_strict_eq ta tb = time_strict_eq tb ta.
Proof.
  destruct ta, tb; simpl; try done. apply bool_decide_ext. naive_solver.
Qed.

Lemma paired_invert (φ : memo) x y :
  (∀ la lb, φ !! la = Some lb → invert φ !! lb = Some la) →
  paired φ x y → paired (invert φ) y x.
Proof.
  intros Hinv [->|(la & lb & -> & -> & Hl)]; [by left|].
  right. exists lb, la. split_and!; [done..|]. by apply Hinv.
Qed.

Lemma obj_agrees_invert h (φ : memo) oa ob :
  distinct oa →
  (∀ la lb, φ !! la = Some lb → invert φ !! lb = Some la) →
  (∀ p psa sya psb syb, oa = ORecord p psa sya → ob = ORecord p psb syb →
     ∀ k, k ∈ keys psa → has_property h p psb k = true → k ∈ keys psb) →
  obj_agrees h φ oa ob → obj_agrees h (invert φ) ob oa.
Proof.
  intros Hnd Hinv Hown. destruct oa, ob; simpl in *; try done.
  - intros Hall. apply Forall2_flip. eapply Forall2_impl; [done|].
    intros x y. by apply paired_invert.
  - intros Ht. by rewrite time_strict_eq_sym.
  - by intros [-> ->].
  - intros [Hlen Hsub]. split; [done|]. by apply included_same_length.
  - intros [Hlen Hsub]. split; [done|]. apply included_same_length; [|done..].
    by apply NoDup_fmap_1 in Hnd.
  - intros (-> & Hlen & Hall). split_and!; [done..|].
    rewrite Forall_forall in Hall. apply Forall_forall. intros k Hk.
    assert (k ∈ keys props) as Hka.
    { revert k Hk. apply included_same_length; [done..|].
      intros k Hk. apply (Hown _ _ _ _ _ eq_refl eq_refl); [done|]. by apply Hall. }
    split; [by apply keys_has_property|].
    apply paired_invert; [done|]. by apply Hall.
Qed.

Lemma faces_inside h a b la lb : faces h a b la lb → inside h a la ∧ inside h b lb.
Proof. intros (path & Ha & Hb). split; by exists path. Qed.

Lemma faces_flip h a b la lb : faces h a b la lb → faces h b a lb la.
Proof. intros (path & Ha & Hb). by exists path. Qed.

(** An agreement that pairs no two objects with the same one, read from
    right to left, is an agreement again. *)
Lemma agreement_invert h (φ : memo) a b :
  proper h a → keys_are_own h a b → agreement h φ →
  (∀ la lb, φ !! la = Some lb → faces h a b la lb) →
  (∀ la la' lb, φ !! la = Some lb → φ !! la' = Some lb → la = la') →
  agreement h (invert φ).
Proof.
  intros Hproper Hown Hag Hface Hinj lb la Hl.
  apply (lookup_invert φ Hinj) in Hl.
  destruct (Hag la lb Hl) as (oa & ob & Hoa & Hob & Hobj).
  exists ob, oa. split_and!; [done..|].
  apply obj_agrees_invert; [| | |done].
  - apply (Hproper la oa); [|done]. by apply (faces_inside h a b la lb), Hface.
  - intros la' lb' Hl'. by apply lookup_invert.
  - intros p psa sya psb syb -> ->.
    by destruct (Hown la lb p psa sya psb syb (Hface la lb Hl) Hoa Hob) as [Hsub _].
Qed.

Lemma equal_fuel h : unseen h ∅ < S (length (objects h)).
Proof. unfold unseen. rewrite dom_empty_L, difference_empty_L, size_set_seq. lia. Qed.

(** One direction of symmetry. *)
Lemma equal_true_flip h a b :
  tame_value h a → tame_value h b → proper h a → keys_are_own h a b →
  one_to_one h a b →
  equal h a b = Some true → equal h b a = Some true.
Proof.
  intros Hta Htb Hproper Hown Hone. unfold equal.
  destruct (deepEqual _ h a b ∅) as [[r φ]|] eqn:Hr; [|done].
  intros [= ->].
  destruct (deepEqual_sound _ h a b ∅ φ Hta Hr) as (_ & Hp & Hadd).
  destruct (deepEqual_faced _ h a b ∅ φ Hta Hr) as [_ Hface].
  assert (agreement h φ) as Hag by (intros la lb Hl; by apply Hadd).
  assert (∀ la lb, φ !! la = Some lb → faces h a b la lb) as Hfaces.
  { intros la lb Hl. by apply Hface. }
  assert (∀ la la' lb, φ !! la = Some lb → φ !! la' = Some lb → la = la') as Hinj.
  { intros la la' lb H1 H2.
    apply (Hone la lb la' lb); [by apply Hfaces|by apply Hfaces|done]. }
  destruct (deepEqual_agree_from (S (length (objects h))) h (invert φ)
              (agreement_invert h φ a b Hproper Hown Hag Hfaces Hinj) b a ∅)
    as (s & -> & _); [done| |apply map_empty_subseteq|apply equal_fuel|done].
  apply paired_invert; [|done]. intros la lb Hl. by apply lookup_invert.
Qed.

Lemma keys_are_own_flip h a b : keys_are_own h a b → keys_are_own h b a.
Proof.
  intros Hown lb la p psb syb psa sya Hf Hb Ha.
  destruct (Hown la lb p psa sya psb syb (faces_flip _ _ _ _ _ Hf) Ha Hb). done.
Qed.

Lemma one_to_one_flip h a b : one_to_one h a b → one_to_one h b a.
Proof.
  intros Hone lb la lb' la' (p & H1 & H2) (q & H3 & H4).
  symmetry. apply Hone; [by exists p|by exists q].
Qed.

(** Two trees face each other one to one. *)
Lemma unshared_one_to_one h a b : unshared h a → unshared h b → one_to_one h a b.
Proof.
  intros Ha Hb la lb la' lb' (p & H1 & H2) (q & H3 & H4). split.
  - intros <-. pose proof (Ha _ _ _ H1 H3) as <-. congruence.
  - intros <-. pose proof (Hb _ _ _ H2 H4) as <-. congruence.
Qed.

(** * Records whose members are compared afresh *)

Lemma reach_key h la p ps sy k path :
  objects h !! la = Some (ORecord p ps sy) → k ∈ keys ps →
  reach h (VRef la) (Key k :: path) = reach h (get h p ps k) path.
Proof.
  intros Hoa Hk. simpl. rewrite Hoa. simpl. by rewrite (keys_has_property h p ps k Hk).
Qed.

Lemma equal_true_agreement h a b :
  tame_value h a → equal h a b = Some true →
  ∃ φ : memo, agreement h φ ∧ paired φ a b ∧
    ∀ la lb, φ !! la = Some lb → faces h a b la lb.
Proof.
  intros Htame. unfold equal.
  destruct (deepEqual _ h a b ∅) as [[r φ]|] eqn:Hr; [|done].
  intros [= ->].
  destruct (deepEqual_sound _ h a b ∅ φ Htame Hr) as (_ & Hp & Hadd).
  destruct (deepEqual_faced _ h a b ∅ φ Htame Hr) as [_ Hface].
  exists φ. split_and!; [|done|].
  - intros la lb Hl. by apply Hadd.
  - intros la lb Hl. by apply Hface.
Qed.

Lemma agreement_equal_true h (φ : memo) a b :
  tame_value h a → agreement h φ → paired φ a b → equal h a b = Some true.
Proof.
  intros Htame Hag Hp. unfold equal.
  destruct (deepEqual_agree_from (S (length (objects h))) h φ Hag a b ∅)
    as (s & -> & _); [done|done|apply map_empty_subseteq|apply equal_fuel|done].
Qed.

(** The members of an unshared record, each equal to its counterpart, are
    paired by one and the same agreement. *)
Lemma members_agreement h la p psa sya psb :
  tame_value h (VRef la) → unshared h (VRef la) →
  objects h !! la = Some (ORecord p psa sya) →
  ∀ ks : list string, (∀ k, k ∈ ks → k ∈ keys psa) →
  (∀ k, k ∈ ks → equal h (get h p psa k) (get h p psb k) = Some true) →
  ∃ φ : memo,
    agreement h φ ∧
    (∀ k, k ∈ ks → paired φ (get h p psa k) (get h p psb k)) ∧
    (∀ l l', φ !! l = Some l' →
       ∃ k path, k ∈ ks ∧ reach h (get h p psa k) path = Some (VRef l)).
Proof.
  intros Htame Hun Hoa. induction ks as [|k ks IH]; intros Hks Heq.
  { exists ∅. split_and!; [by intros ?? ?%lookup_empty_Some| |].
    - by intros k ?%elem_of_nil.
    - by intros ?? ?%lookup_empty_Some. }
  destruct IH as (φ & Hag & Hp & Hr).
  { intros k' Hk'. apply Hks. by right. }
  { intros k' Hk'. apply Heq. by right. }
  destruct (decide (k ∈ ks)) as [Hin|Hnew].
  { exists φ. split_and!; [done| |].
    - intros k' [->|Hk']%elem_of_cons; by apply Hp.
    - intros l l' Hl. destruct (Hr l l' Hl) as (k' & path & ? & ?).
      exists k', path. split; [by right|done]. }
  assert (tame_value h (get h p psa k)) as Htk.
  { apply (tame_value_member h la (ORecord p psa sya) (Key k)); [done| |done].
    apply member_key, Hks. by left. }
  destruct (equal_true_agreement h _ _ Htk (Heq k ltac:(by left)))
    as (φk & Hagk & Hpk & Hfk).
  assert (φk ##ₘ φ) as Hdisj.
  { apply map_disjoint_spec. intros l l1 l2 H1 H2.
    destruct (Hfk l l1 H1) as (path1 & Hpath1 & _).
    destruct (Hr l l2 H2) as (k' & path2 & Hk' & Hpath2).
    rewrite <- (reach_key h la p psa sya k) in Hpath1; [|done|apply Hks; by left].
    rewrite <- (reach_key h la p psa sya k') in Hpath2; [|done|apply Hks; by right].
    pose proof (Hun _ _ _ Hpath1 Hpath2) as [= -> _]. done. }
  exists (φk ∪ φ).
  assert (φk ⊆ φk ∪ φ) as H1 by apply map_union_subseteq_l.
  assert (φ ⊆ φk ∪ φ) as H2 by (by apply map_union_subseteq_r).
  split_and!.
  - intros l l' [Hl|Hl]%lookup_union_Some; [| |done].
    + eapply agrees_at_mono; [exact H1|]. by apply Hagk.
    + eapply agrees_at_mono; [exact H2|]. by apply Hag.
  - intros k' [->|Hk']%elem_of_cons.
    + by eapply paired_mono; [exact H1|].
    + eapply paired_mono; [exact H2|]. by apply Hp.
  - intros l l' [Hl|Hl]%lookup_union_Some; [| |done].
    + destruct (Hfk l l' Hl) as (path & Hpath & _). exists k, path. split; [by left|done].
    + destruct (Hr l l' Hl) as (k' & path & ? & ?). exists k', path. split; [by right|done].
Qed.

Lemma in_rule_equal h la lb p psa sya psb syb :
  tame_value h (VRef la) →
  objects h !! la = Some (ORecord p psa sya) →
  objects h !! lb = Some (ORecord p psb syb) →
  unshared h (VRef la) →
  in_rule h p psa psb → equal h (VRef la) (VRef lb) = Some true.
Proof.
  intros Htame Hoa Hob Hun [Hlen Hall].
  destruct (members_agreement h la p psa sya psb Htame Hun Hoa (keys psa))
    as (φ & Hag & Hp & Hr); [done|by intros k [_ ?]%Hall|].
  assert (φ !! la = None) as Hla.
  { destruct (φ !! la) as [l'|] eqn:Hl; [|done].
    destruct (Hr la l' Hl) as (k & path & Hk & Hpath).
    rewrite <- (reach_key h la p psa sya k) in Hpath by done.
    by pose proof (Hun _ [] _ Hpath eq_refl). }
  assert (φ ⊆ <[la:=lb]> φ) as Hsub by (by apply insert_subseteq).
  apply (agreement_equal_true h (<[la:=lb]> φ)); [done| |].
  - intros l l' [[<- <-]|[Hne Hl]]%lookup_insert_Some.
    + exists (ORecord p psa sya), (ORecord p psb syb). split_and!; [done..|].
      simpl. split_and!; [done..|]. apply Forall_forall. intros k Hk.
      split; [by apply Hall|]. eapply paired_mono; [done|]. by apply Hp.
    + eapply agrees_at_mono; [done|]. by apply Hag.
  - right. exists la, lb. by rewrite lookup_insert_eq.
Qed.

Lemma equal_in_rule h la lb p psa sya psb syb :
  tame_value h (VRef la) →
  objects h !! la = Some (ORecord p psa sya) →
  objects h !! lb = Some (ORecord p psb syb) →
  la ≠ lb →
  equal h (VRef la) (VRef lb) = Some true → in_rule h p psa psb.
Proof.
  intros Htame Hoa Hob Hne Heq.
  destruct (equal_true_agreement h _ _ Htame Heq) as (φ & Hag & Hp & _).
  destruct Hp as [[= ?]|(la' & lb' & [= <-] & [= <-] & Hl)]; [done|].
  destruct (Hag la lb Hl) as (oa & ob & Hoa' & Hob' & Hobj).
  simplify_eq. destruct Hobj as (_ & Hlen & Hall).
  split; [done|]. intros k Hk.
  rewrite Forall_forall in Hall. destruct (Hall k Hk) as [Hin Hpk].
  split; [done|]. eapply agreement_equal_true; [|done..].
  apply (tame_value_member h la (ORecord p psa sya) (Key k)); [done| |done].
  by apply member_key.
Qed.

Lemma in_rule_same_keys h p psa psb :
  NoDup (keys psa) → NoDup (keys psb) →
  (∀ k, k ∈ keys psa → has_property h p psb k = true → k ∈ keys psb) →
  in_rule h p psa psb ↔ same_keys_equal_members h p psa psb.
Proof.
  intros Hnda Hndb Hown. split.
  - intros [Hlen Hall].
    assert (∀ k, k ∈ keys psa → k ∈ keys psb) as Hsub.
    { intros k Hk. apply Hown; [done|]. by apply Hall. }
    split; [|by intros k [_ ?]%Hall].
    intros k. split; [by apply Hsub|]. by apply included_same_length.
  - intros [Hkeys Hall]. split.
    + by apply Permutation_length, NoDup_Permutation.
    + intros k Hk. split; [|by apply Hall]. apply keys_has_property. by apply Hkeys.
Qed.

(** * A pair stays in the memo when its comparison fails *)

Lemma compared_pair_recorded fuel h x y ox oy (s s' : memo) r :
  objects h !! x = Some ox → objects h !! y = Some oy →
  getPrototypeOf ox = getPrototypeOf oy → x ≠ y → s !! x = None →
  deepEqual fuel h (VRef x) (VRef y) s = Some (r, s') → s' !! x = Some y.
Proof.
  intros Hox Hoy Hproto Hne Hnone. destruct fuel as [|fuel]; [done|].
  cbn [deepEqual]. unfold object_is.
  rewrite bool_decide_eq_false_2 by congruence. rewrite Hox, Hoy.
  rewrite bool_decide_eq_true_2 by done. cbn [negb]. rewrite Hnone.
  assert (∀ t : memo, <[x:=y]> s ⊆ t → t !! x = Some y) as Hkeep.
  { intros t Ht. eapply lookup_weaken; [|done]. by rewrite lookup_insert_eq. }
  pose proof (deepEqual_grows fuel h) as Hcmp.
  destruct ox, oy; try done.
  - destruct (negb _); [by intros [= _ <-]; apply Hkeep|].
    intros Hr. apply Hkeep. by eapply every_index_grows.
  - intros [= _ <-]. by apply Hkeep.
  - intros [= _ <-]. by apply Hkeep.
  - destruct (negb _); [by intros [= _ <-]; apply Hkeep|].
    intros Hr. apply Hkeep. by eapply every_element_grows.
  - destruct (negb _); [by intros [= _ <-]; apply Hkeep|].
    intros Hr. apply Hkeep. by eapply every_entry_grows.
  - destruct (every_key _ _ _ _ _ _ _) as [[[] s1]|] eqn:Hk; [| |done].
    + intros [= _ <-]. apply Hkeep. by eapply every_key_grows.
    + intros [= _ <-]. apply Hkeep. by eapply every_key_grows.
Qed.

Lemma recorded_pair_answers n h x z ox oz (t : memo) y :
  objects h !! x = Some ox → objects h !! z = Some oz →
  getPrototypeOf oz = getPrototypeOf ox → z ≠ x → t !! x = Some y →
  deepEqual (S n) h (VRef x) (VRef z) t = Some (bool_decide (y = z), t).
Proof.
  intros Hox Hoz Hproto Hne Hl. cbn [deepEqual]. unfold object_is.
  rewrite bool_decide_eq_false_2 by congruence. rewrite Hox, Hoz.
  rewrite bool_decide_eq_true_2 by done. cbn [negb]. by rewrite Hl.
Qed.

(** * The sample heaps *)

Lemma reach_primitive h v path l :
  primitive v → reach h v path = Some (VRef l) → False.
Proof. destruct path, v; simpl; done. Qed.

Lemma rows_heap_ok : heap_ok Nested.rows.
Proof.
  split.
  - repeat constructor; simpl; lia.
  - intros [|p]; simpl; by repeat constructor.
Qed.

Lemma rows_tame : tame Nested.rows.
Proof. intros l o Hl. repeat (destruct l as [|l]; simplify_eq/=; try done). Qed.

Lemma rows_proper v : proper Nested.rows v.
Proof.
  intros l o _ Hl.
  repeat (destruct l as [|l]; simplify_eq/=; try done); compute_done.
Qed.

Lemma rows_keys_are_own a b : keys_are_own Nested.rows a b.
Proof.
  intros la lb p psa sya psb syb _ Ha Hb.
  repeat (destruct la as [|la]; simplify_eq/=; try done);
    repeat (destruct lb as [|lb]; simplify_eq/=; try done).
  all: unfold Sample.literal in *; simplify_eq/=; by split.
Qed.

Lemma rows_faces path la lb :
  reach Nested.rows (VRef 0) path = Some (VRef la) →
  reach Nested.rows (VRef 1) path = Some (VRef lb) →
  (la, lb) ∈ [(0, 1); (2, 4); (3, 5)].
Proof.
  destruct path as [|[i|k] path]; simpl; [intros [= <-] [= <-]; set_solver| |done].
  destruct i as [|[|i]]; simpl; [| |done].
  - destruct path as [|[i|k] path]; simpl; [intros [= <-] [= <-]; set_solver|done|].
    destruct (has_property _ _ _ _); [|done].
    unfold get; simpl. case_decide; simpl.
    + intros []%reach_primitive. done.
    + repeat case_decide; simpl; try (intros []%reach_primitive; done).
  - destruct path as [|[i|k] path]; simpl; [intros [= <-] [= <-]; set_solver|done|].
    destruct (has_property _ _ _ _); [|done].
    unfold get; simpl. case_decide; simpl.
    + intros []%reach_primitive. done.
    + repeat case_decide; simpl; try (intros []%reach_primitive; done).
Qed.

Lemma rows_one_to_one : one_to_one Nested.rows (VRef 0) (VRef 1).
Proof.
  intros la lb la' lb' (p & H1 & H2) (q & H3 & H4).
  pose proof (rows_faces p la lb H1 H2) as Hp.
  pose proof (rows_faces q la' lb' H3 H4) as Hq.
  set_unfold. naive_solver.
Qed.

Lemma profiles_tame : tame Nested.profiles.
Proof. intros l o Hl. repeat (destruct l as [|l]; simplify_eq/=; try done). Qed.

Lemma profiles_reach path l :
  reach Nested.profiles (VRef 0) path = Some (VRef l) →
  (path, l) ∈ [([], 0); ([Key "user"], 2)].
Proof.
  destruct path as [|[i|k] path]; simpl; [intros [= <-]; set_solver|done|].
  destruct (has_property _ _ _ _); [|done].
  unfold get; simpl. case_decide; simpl.
  - subst k. destruct path as [|[i|k] path]; simpl; [intros [= <-]; set_solver|done|].
    destruct (has_property _ _ _ _); [|done].
    unfold get; simpl. repeat case_decide; simpl; try (intros []%reach_primitive; done).
  - repeat case_decide; simpl; try (intros []%reach_primitive; done).
Qed.

Lemma profiles_unshared : unshared Nested.profiles (VRef 0).
Proof.
  intros p q l Hp%profiles_reach Hq%profiles_reach.
  set_unfold. naive_solver.
Qed.

Lemma differ_below_heap_ok : heap_ok Nested.differ_below.
Proof.
  split.
  - repeat constructor; simpl; lia.
  - intros [|p]; simpl; by repeat constructor.
Qed.

Lemma differ_below_tame : tame Nested.differ_below.
Proof. intros l o Hl. repeat (destruct l as [|l]; simplify_eq/=; try done). Qed.

Lemma differ_below_agreement :
  agreement Nested.differ_below {[0 := 4; 1 := 5]}.
Proof.
  intros la lb Hl. apply lookup_insert_Some in Hl as [[<- <-]|[_ Hl]].
  - eexists _, _. split_and!; [reflexivity..|]. simpl. split_and!; [done..|].
    apply Forall_cons. split; [split; [done|right; by exists 0, 4]|].
    apply Forall_cons. split; [split; [done|right; by exists 1, 5]|constructor].
  - apply lookup_singleton_Some in Hl as [<- <-].
    eexists _, _. split_and!; [reflexivity..|]. simpl. split_and!; [done..|].
    apply Forall_cons. split; [split; [done|by left]|constructor].
Qed.

Lemma differ_below_no_agreement :
  ¬ ∃ φ : memo, agreement Nested.differ_below φ ∧ paired φ (VRef 0) (VRef 2).
Proof.
  intros (φ & Hag & [[=]|(la & lb & [= <-] & [= <-] & Hl)]).
  destruct (Hag 0 2 Hl) as (oa & ob & [= <-] & [= <-] & _ & _ & Hall).
  apply Forall_cons in Hall as [_ Hall]. apply Forall_cons in Hall as [[_ Hv] _].
  destruct Hv as [[=]|(la & lb & [= <-] & [= <-] & Hl')].
  destruct (Hag 1 3 Hl') as (oa & ob & [= <-] & [= <-] & _ & _ & Hall').
  apply Forall_cons in Hall' as [[_ Hx] _].
  by destruct Hx as [[=]|(la & lb & [=] & _)].
Qed.

Lemma looped_sets_heap_ok : heap_ok Sample.looped_sets.
Proof.
  split.
  - repeat constructor; simpl; lia.
  - intros [|p]; simpl; by repeat constructor.
Qed.

Lemma loops_heap_ok : heap_ok Sample.loops.
Proof.
  split.
  - repeat constructor; simpl; lia.
  - intros [|p]; simpl; by repeat constructor.
Qed.

Lemma loops_proper v : proper Sample.loops v.
Proof.
  intros l o _ Hl.
  repeat (destruct l as [|l]; simplify_eq/=; try done); compute_done.
Qed.

Lemma loops_faces path la lb :
  reach Sample.loops (VRef 0) path = Some (VRef la) →
  reach Sample.loops (VRef 1) path = Some (VRef lb) →
  la = 0 ∧ lb = 1.
Proof.
  induction path as [|[i|k] path IH]; simpl; [by intros [= <-] [= <-]|done|].
  unfold has_property, get; simpl. case_decide; simpl; [exact IH|].
  repeat case_decide; repeat case_bool_decide; simpl; try done;
    try (intros []%reach_primitive; done).
Qed.

Lemma loops_keys_are_own : keys_are_own Sample.loops (VRef 0) (VRef 1).
Proof.
  intros la lb p psa sya psb syb (path & H1 & H2) Ha Hb.
  destruct (loops_faces path la lb H1 H2) as [-> ->].
  simplify_eq/=. unfold Sample.literal in *. simplify_eq/=. by split.
Qed.

Lemma loops_one_to_one : one_to_one Sample.loops (VRef 0) (VRef 1).
Proof.
  intros la lb la' lb' (p & H1 & H2) (q & H3 & H4).
  destruct (loops_faces p la lb H1 H2) as [-> ->].
  by destruct (loops_faces q la' lb' H3 H4) as [-> ->].
Qed.

Lemma inherited_key_tame : tame Sample.inherited_key.
Proof. intros l o Hl. repeat (destruct l as [|l]; simplify_eq/=; try done). Qed.

Lemma inherited_key_reach path l :
  reach Sample.inherited_key (VRef 0) path = Some (VRef l) → path = [] ∧ l = 0.
Proof.
  destruct path as [|[i|k] path]; simpl; [by intros [= <-]|done|].
  unfold has_property, get; simpl.
  repeat case_decide; repeat case_bool_decide; simpl; try done;
    try (intros []%reach_primitive; done).
Qed.

Lemma inherited_key_unshared : unshared Sample.inherited_key (VRef 0).
Proof.
  intros p q l [-> _]%inherited_key_reach [-> _]%inherited_key_reach. done.
Qed.

(** * Runs of the store *)

(** More fuel never changes the outcome of a run that finished. *)
Lemma exec_mono fuel E t w r :
  exec fuel E t w = Some r → ∀ fuel', fuel ≤ fuel' → exec fuel' E t w = Some r.
Proof.
  revert t w r. induction fuel as [|n IH]; intros t w r Hrun [|m] Hle; try done; [lia|].
  assert (Hn : ∀ t w r, exec n E t w = Some r → exec m E t w = Some r).
  { intros. eapply IH; [done|lia]. }
  clear IH Hle. cbn [exec] in *.
  destruct t as [p|d a|i]; [destruct p|destruct d; [| | | | | destruct a|]|];
    repeat match goal with
    | |- Some _ = Some _ => done
    | H : exec n E ?t ?w = Some _ |- _ => apply Hn in H; rewrite H; clear H
    | H : match exec n E ?t ?w with _ => _ end = Some _ |- _ =>
        let Heq := fresh "Heq" in
        destruct (exec n E t w) as [[[] ?]|] eqn:Heq; [| |discriminate H];
        apply Hn in Heq; rewrite Heq; clear Heq
    | H : match equal ?h ?a ?b with _ => _ end = Some _ |- _ =>
        destruct (equal h a b) as [[]|]; [| |discriminate H]
    | H : match ?l !! ?i with _ => _ end = Some _ |- _ =>
        destruct (l !! i) as [[]|]
    | H : (if ?b then _ else _) = Some _ |- _ => destruct b
    | H : ?x = Some _ |- ?x = Some _ => exact H
    | H : None = Some _ |- _ => discriminate H
    end.
Qed.

Lemma evaluates_fun E t w r1 r2 : evaluates E t w r1 → evaluates E t w r2 → r1 = r2.
Proof.
  intros [f1 H1] [f2 H2].
  pose proof (exec_mono _ _ _ _ _ H1 (f1 `max` f2)) as H1'.
  pose proof (exec_mono _ _ _ _ _ H2 (f1 `max` f2)) as H2'.
  rewrite H1' in H2' by lia. specialize (H2' ltac:(lia)). congruence.
Qed.

(** * The base dispatch *)

Lemma evaluates_mono E t w r : evaluates E t w r → ∀ n, ∃ fuel, n ≤ fuel ∧ exec fuel E t w = Some r.
Proof.
  intros [f Hf] n. exists (f `max` n). split; [lia|]. eapply exec_mono; [done|lia].
Qed.

Lemma log_all_nil w : log_all [] w = w.
Proof. destruct w. unfold log_all. simpl. by rewrite app_nil_r. Qed.

Lemma log_all_log e es w : log_all es (log e w) = log_all (e :: es) w.
Proof. unfold log_all, log. simpl. by rewrite <- app_assoc. Qed.

Lemma log_all_app es es' w : log_all es' (log_all es w) = log_all (es ++ es') w.
Proof. unfold log_all. simpl. by rewrite <- app_assoc. Qed.

(** A passive body runs to its end and leaves only its notes. *)
Lemma passive_run E p w :
  passive (store_heap w) (currentState w) p →
  ∃ v, exec (steps (store_heap w) (currentState w) p) E (Run p) w
       = Some (Returned v, log_all (observations (store_heap w) (currentState w) p) w).
Proof.
  revert w. induction p as [v| | | l k IH|k IH| | | |v k IH|]; intros w Hp; try done.
  - exists v. simpl. by rewrite log_all_nil.
  - destruct (IH _ w Hp) as [v Hv]. exists v. simpl. done.
  - destruct (IH _ w Hp) as [v Hv]. exists v. simpl. done.
  - destruct (IH (log (Observed v) w) Hp) as [v' Hv]. exists v'. simpl.
    simpl in Hv. rewrite Hv. by rewrite log_all_log.
Qed.

(** The notification pass over passive listeners. *)
Lemma forEach_passive E w i :
  (∀ l, l ∈ live (drop i (listeners w)) →
     passive (store_heap w) (currentState w) (listener E l (currentState w))) →
  evaluates E (ForEach i) w
    (Returned VUndefined,
     log_all (pass E (store_heap w) (currentState w) (live (drop i (listeners w)))) w).
Proof.
  remember (length (listeners w) - i) as n eqn:Hn.
  revert i w Hn. induction n as [|n IH]; intros i w Hn Hp.
  - exists 1. simpl. rewrite lookup_ge_None_2 by lia.
    rewrite drop_ge by lia. simpl. by rewrite log_all_nil.
  - destruct (lookup_lt_is_Some_2 (listeners w) i) as [e He]; [lia|].
    rewrite (drop_S _ _ _ He) in Hp |- *.
    destruct e as [l|]; simpl in Hp |- *.
    + unfold live in Hp. simpl in Hp.
      assert (passive (store_heap w) (currentState w) (listener E l (currentState w))) as Hl.
      { apply Hp. by left. }
      destruct (passive_run E _ (log (Notified l (currentState w)) w) Hl) as [v Hv].
      simpl in Hv. rewrite log_all_log in Hv.
      set (w1 := log_all (Notified l (currentState w)
                  :: observations (store_heap w) (currentState w) (listener E l (currentState w))) w) in *.
      destruct (IH (S i) w1) as [f Hf]; [simpl; lia| |].
      { intros l' Hl'. apply Hp. by right. }
      exists (S (f `max` steps (store_heap w) (currentState w) (listener E l (currentState w)))).
      cbn [exec]. rewrite He.
      rewrite (exec_mono _ _ _ _ _ Hv) by lia.
      rewrite (exec_mono _ _ _ _ _ Hf) by lia.
      subst w1. simpl. by rewrite log_all_app.
    + destruct (IH (S i) w) as [f Hf]; [lia|done|].
      exists (S f). cbn [exec]. by rewrite He.
Qed.

(** [baseDispatch]: the three ways it can go. *)
Lemma baseDispatch_suppressed E w a v w1 :
  evaluates E (Run (reducer w (currentState w) a)) (log (Reduced (currentState w) a) w)
    (Returned v, w1) →
  equal (store_heap w1) v (currentState w1) = Some true →
  evaluates E (Dispatch BaseArrow a) w (Returned VUndefined, w1).
Proof.
  intros [f Hf] Heq. exists (S f). cbn [exec]. by rewrite Hf, Heq.
Qed.

Lemma baseDispatch_changed E w a v w1 r :
  evaluates E (Run (reducer w (currentState w) a)) (log (Reduced (currentState w) a) w)
    (Returned v, w1) →
  equal (store_heap w1) v (currentState w1) = Some false →
  evaluates E (ForEach 0) (log (Swapped v) (with_state v w1)) r →
  evaluates E (Dispatch BaseArrow a) w r.
Proof.
  intros [f Hf] Heq [g Hg]. exists (S (f `max` g)). cbn [exec].
  rewrite (exec_mono _ _ _ _ _ Hf) by lia. rewrite Heq.
  by rewrite (exec_mono _ _ _ _ _ Hg) by lia.
Qed.

Lemma baseDispatch_threw E w a e w1 :
  evaluates E (Run (reducer w (currentState w) a)) (log (Reduced (currentState w) a) w)
    (Threw e, w1) →
  evaluates E (Dispatch BaseArrow a) w (Threw e, w1).
Proof.
  intros [f Hf]. exists (S f). cbn [exec]. by rewrite Hf.
Qed.

Lemma storeDispatch_base E w a r :
  store_dispatch w = BaseArrow →
  evaluates E (Dispatch StoreDispatch a) w r ↔ evaluates E (Dispatch BaseArrow a) w r.
Proof.
  intros Hd. split.
  - intros [[|f] Hf]; [done|]. cbn [exec] in Hf. rewrite Hd in Hf. by exists f.
  - intros [f Hf]. exists (S f). cbn [exec]. by rewrite Hd.
Qed.

Lemma baseDispatch_passive E w a v w1 :
  evaluates E (Run (reducer w (currentState w) a)) (log (Reduced (currentState w) a) w)
    (Returned v, w1) →
  equal (store_heap w1) v (currentState w1) = Some false →
  (∀ l, l ∈ live (listeners w1) → passive (store_heap w1) v (listener E l v)) →
  evaluates E (Dispatch BaseArrow a) w
    (Returned VUndefined,
     log_all (Swapped v :: pass E (store_heap w1) v (live (listeners w1))) (with_state v w1)).
Proof.
  intros Hred Heq Hp. eapply baseDispatch_changed; [done..|].
  pose proof (forEach_passive E (log (Swapped v) (with_state v w1)) 0) as Hpass.
  simpl in Hpass. rewrite log_all_log in Hpass. apply Hpass. done.
Qed.

(** * The guard and the pipeline *)

Lemma quiet_refl w : quiet w w.
Proof. split; [done|]. exists []. by rewrite app_nil_r. Qed.

Lemma quiet_same w0 w w' :
  isReducing w' = isReducing w → trace w' = trace w → quiet w0 w → quiet w0 w'.
Proof. intros Hf Ht [? (tr & ? & ?)]. split; [congruence|]. exists tr. split; [congruence|done]. Qed.

Lemma quiet_log w0 w e : ¬ is_entered e → quiet w0 w → quiet w0 (log e w).
Proof.
  intros He [? (tr & Htr & Hall)]. split; [done|]. exists (tr ++ [e]). split.
  - simpl. rewrite Htr. by rewrite <- app_assoc.
  - apply Forall_app. split; [done|]. by constructor.
Qed.

Lemma quiet_flag w0 w : isReducing w0 = true → quiet w0 w → isReducing w = true.
Proof. intros ? [? _]. congruence. Qed.

(** While the guard flag is set, no run resets it and no call passes the guard. *)
Lemma guard_closed fuel E t w0 w r :
  isReducing w0 = true → quiet w0 w → exec fuel E t w = Some r → quiet w0 r.2.
Proof.
  intros Hw0. revert t w r. induction fuel as [|n IH]; intros t w r Hq Hrun; [done|].
  cbn [exec] in Hrun.
  destruct t as [p|d a|i]; [destruct p|destruct d; [| | | | | destruct a|]|];
    repeat match goal with
    | H : Some _ = Some _ |- _ => injection H as <-; simpl
    | H : None = Some _ |- _ => discriminate H
    | |- quiet w0 ?w' => assumption
    | H : exec n E ?t ?w' = Some ?r |- quiet w0 (?r).2 =>
        apply (IH t w' r); [|exact H]
    | H : match exec n E ?t ?w' with _ => _ end = Some _ |- _ =>
        let Heq := fresh "Heq" in
        destruct (exec n E t w') as [[[] ?]|] eqn:Heq; [| |discriminate H];
        apply IH in Heq; simpl in Heq
    | H : match equal ?h ?a ?b with _ => _ end = Some _ |- _ =>
        destruct (equal h a b) as [[]|]; [| |discriminate H]
    | H : match ?l !! ?i with _ => _ end = Some _ |- _ =>
        destruct (l !! i) as [[]|]
    | H : (if isReducing ?w then _ else _) = Some _ |- _ =>
        rewrite (quiet_flag w0 w Hw0) in H by assumption
    | |- quiet w0 (log _ _) => apply quiet_log; [by intros []|]
    | |- quiet w0 _ => by (eapply quiet_same; [| |eassumption])
    end.
Qed.

(** A forwarding layer is transparent. *)
Lemma layers_forward E a n i w r :
  (∀ j, i ≤ j < i + n → chain w !! j = Some forward) →
  evaluates E (Dispatch GuardedDispatch a) w r →
  evaluates E (Dispatch (layers i n) a) w r.
Proof.
  revert i. induction n as [|n IH]; intros i Hfw Hr; [done|].
  destruct (IH (S i)) as [f Hf]; [intros; apply Hfw; lia|done|].
  exists (S (S (S f))). unfold layers. cbn [seq foldr]. fold (layers (S i) n).
  pose proof (exec_mono _ _ _ _ _ Hf (S f) ltac:(lia)) as Hg.
  remember (S f) as g eqn:Eg. clear Eg Hf.
  cbn [exec]. rewrite Hfw by lia. unfold forward. cbn beta iota.
  rewrite Hg. destruct g; [done|]. by destruct r as [[v|e] w1].
Qed.

Lemma applyMiddleware_layers w mws :
  (applyMiddleware w mws).1 = layers 0 (length mws).
Proof. done. Qed.

(** What [createStore] builds when it is given middlewares. *)
Lemma createStore_composed h red init mws :
  mws ≠ [] →
  createStore h red init mws =
    World h red init [] (layers 0 (length mws)) mws (layers 0 (length mws)) false [].
Proof.
  intros Hne. unfold createStore.
  rewrite bool_decide_eq_true_2; [done|]. destruct mws; [done|simpl; lia].
Qed.



(** * The listener set *)

Lemma elem_of_live l es : l ∈ live es ↔ Some l ∈ es.
Proof.
  unfold live. rewrite list_elem_of_omap. split.
  - by intros ([x|] & Hx & [= ->]).
  - intros Hl. by exists (Some l).
Qed.

Lemma live_app es es' : live (es ++ es') = live es ++ live es'.
Proof. unfold live. by rewrite omap_app. Qed.

Lemma live_set_add l es :
  live (set_add l es) = if bool_decide (l ∈ live es) then live es else live es ++ [l].
Proof.
  unfold set_add. rewrite (bool_decide_ext _ _ (elem_of_live l es)).
  case_bool_decide; [done|]. by rewrite live_app.
Qed.

Lemma live_set_delete l es : l ∉ live (set_delete l es).
Proof.
  rewrite elem_of_live. unfold set_delete. rewrite list_elem_of_fmap.
  intros (e & He & _). by case_decide.
Qed.

Lemma set_add_idem l es : set_add l (set_add l es) = set_add l es.
Proof.
  unfold set_add at 1. rewrite bool_decide_eq_true_2; [done|].
  unfold set_add. case_bool_decide; [done|]. apply elem_of_app. right. by left.
Qed.

Lemma NoDup_live_set_add l es : NoDup (live es) → NoDup (live (set_add l es)).
Proof.
  intros Hnd. rewrite live_set_add. case_bool_decide; [done|].
  apply NoDup_app. split_and!; [done| |apply NoDup_singleton].
  intros x Hx ->%list_elem_of_singleton. done.
Qed.

Lemma count_NoDup (l : nat) ls : NoDup ls → l ∈ ls → count_occ Nat.eq_dec ls l = 1.
Proof.
  intros Hnd Hl. apply NoDup_ListNoDup in Hnd. apply list_elem_of_In in Hl.
  pose proof (proj1 (NoDup_count_occ Nat.eq_dec ls) Hnd l).
  apply (count_occ_In Nat.eq_dec) in Hl. lia.
Qed.

Lemma times_notified_app l tr tr' :
  times_notified l (tr ++ tr') = times_notified l tr + times_notified l tr'.
Proof.
  induction tr as [|[] tr IH]; simpl; try done. rewrite IH. lia.
Qed.

Lemma times_notified_observations l h s p : times_notified l (observations h s p) = 0.
Proof. induction p; simpl; eauto. Qed.

Lemma times_notified_pass E h s l ls :
  times_notified l (pass E h s ls) = count_occ Nat.eq_dec ls l.
Proof.
  induction ls as [|l' ls IH]; [done|]. unfold pass in *. simpl.
  rewrite times_notified_app, times_notified_observations, IH.
  destruct (Nat.eq_dec l' l), (decide (l' = l)); done.
Qed.

Lemma untouched_refl w : untouched w w.
Proof. split_and!; try done. exists []. by rewrite app_nil_r. Qed.

Lemma computes_run fuel E p w o w1 :
  computes p → exec fuel E (Run p) w = Some (o, w1) → untouched w w1.
Proof.
  revert p w. induction fuel as [|n IH]; intros p w Hp Hrun; [done|].
  cbn [exec] in Hrun. destruct p; try done; simpl in Hp.
  - injection Hrun as <- <-. apply untouched_refl.
  - injection Hrun as <- <-. apply untouched_refl.
  - apply IH in Hrun; [|done]. destruct Hrun as (? & ? & ? & ?). done.
  - by apply IH in Hrun.
  - by apply IH in Hrun.
  - apply IH in Hrun; [|done]. destruct Hrun as (? & ? & ? & tr & Ht & Hall).
    split_and!; try done. exists (Observed v :: tr). split.
    + rewrite Ht. simpl. by rewrite <- app_assoc.
    + by constructor.
Qed.

Lemma times_notified_observed l tr : Forall is_observed tr → times_notified l tr = 0.
Proof. induction 1 as [|[] tr He _ IH]; simpl in *; done. Qed.

Lemma untouched_times_notified w w' l :
  untouched w w' → times_notified l (trace w') = times_notified l (trace w).
Proof.
  intros (_ & _ & _ & tr & -> & Hall).
  rewrite times_notified_app, (times_notified_observed l tr) by done. lia.
Qed.

(** A state-changing dispatch calls each passive listener once per entry of
    the set. *)
Lemma baseDispatch_counts E w a v w1 :
  evaluates E (Run (reducer w (currentState w) a)) (log (Reduced (currentState w) a) w)
    (Returned v, w1) →
  equal (store_heap w1) v (currentState w1) = Some false →
  (∀ l, l ∈ live (listeners w1) → passive (store_heap w1) v (listener E l v)) →
  ∃ w', evaluates E (Dispatch BaseArrow a) w (Returned VUndefined, w') ∧
        currentState w' = v ∧
        ∀ l, times_notified l (trace w') =
             times_notified l (trace w1) + count_occ Nat.eq_dec (live (listeners w1)) l.
Proof.
  intros Hred Heq Hp. eexists. split; [by apply baseDispatch_passive|].
  split; [done|]. intros l. simpl.
  rewrite times_notified_app. simpl. by rewrite times_notified_pass.
Qed.

Lemma reducer_computes E w a o w1 :
  computes (reducer w (currentState w) a) →
  evaluates E (Run (reducer w (currentState w) a)) (log (Reduced (currentState w) a) w) (o, w1) →
  reduced_only w a w1.
Proof.
  intros Hc [f Hf]. apply computes_run in Hf as (Hs & Hl & _ & tr & Ht & Hall); [|done].
  split_and!; [done..|]. exists tr. split; [|done].
  rewrite Ht. simpl. by rewrite <- app_assoc.
Qed.

(** * The comparator: what holds of the claims *)

(** ** Symmetry *)

(** C2, counterexample.  [a = new Set([{v:1}, {v:1}])] and
    [b = new Set([{v:1}, {v:2}])] have the same cardinality, and every
    element of [a] finds a counterpart in [b], so [deepEqual(a, b)] is true;
    the element [{v:2}] of [b] finds none in [a], so [deepEqual(b, a)] is
    false. *)
Lemma comparator_not_symmetric :
  equal Sample.two_sets (VRef 0) (VRef 3) = Some true ∧
  equal Sample.two_sets (VRef 3) (VRef 0) = Some false.
Proof. split; vm_compute; reflexivity. Qed.

(** The same happens with ordered sequences that share an element:
    [[x, x]] against [[y1, y2]] is unequal, because [x] was already paired
    with [y1] when it meets [y2]; the other way round it is equal. *)
Lemma shared_element_one_way :
  equal Sample.shared_element (VRef 0) (VRef 1) = Some false ∧
  equal Sample.shared_element (VRef 1) (VRef 0) = Some true.
Proof. split; vm_compute; reflexivity. Qed.

(** And with cycles of different lengths: [a = {self: a2}], [a2 = {self: a}]
    against [b = {self: b}] is equal, [a] and [a2] both being paired with
    [b]; the other way round [b] would need two partners. *)
Lemma cycle_lengths_one_way :
  equal Nested.cycle_lengths (VRef 0) (VRef 2) = Some true ∧
  equal Nested.cycle_lengths (VRef 2) (VRef 0) = Some false.
Proof. split; vm_compute; reflexivity. Qed.

(** A key that one record owns and the other inherits is found by [in] one
    way only: [{constructor: Object}] against [{z: 1}]. *)
Lemma inherited_key_one_way :
  equal Sample.inherited_key (VRef 0) (VRef 1) = Some true ∧
  equal Sample.inherited_key (VRef 1) (VRef 0) = Some false.
Proof. split; vm_compute; reflexivity. Qed.

(** C2, as amended: the comparator is symmetric on every two values, of
    whatever kind and depth, cyclic or not, in which no [Set] or [Map] holds
    an object and whose objects face each other one to one: no object of
    either value stands, at the positions reached by the same indices and
    keys, opposite two different objects of the other.  Where a record
    faces a record, no key of the one is found on the other through the
    prototype chain or among its non-enumerable members. *)
Theorem comparator_symmetric h a b :
  heap_ok h → value_ok h a → value_ok h b →
  tame_value h a → tame_value h b → proper h a → proper h b →
  keys_are_own h a b → one_to_one h a b →
  equal h a b = equal h b a.
Proof.
  intros Hh Ha Hb Hta Htb Hpa Hpb Hown Hone.
  pose proof (equal_true_flip h a b Hta Htb Hpa Hown Hone) as Hab.
  pose proof (equal_true_flip h b a Htb Hta Hpb (keys_are_own_flip _ _ _ Hown)
                (one_to_one_flip _ _ _ Hone)) as Hba.
  destruct (deepEqual_total h a b Hh Ha Hb) as (r1 & s1 & H1).
  destruct (deepEqual_total h b a Hh Hb Ha) as (r2 & s2 & H2).
  unfold equal in *. rewrite H1, H2 in *. simpl in *.
  destruct r1, r2; try done.
  - by rewrite Hab.
  - by rewrite Hba.
Qed.

(** [[{name: "ann"}, {name: "bob"}]] and the same value built once more,
    either way round; and the self-referential [a = {self: a}] and
    [b = {self: b}]. *)
Lemma comparator_symmetric_witness :
  equal Nested.rows (VRef 0) (VRef 1) = equal Nested.rows (VRef 1) (VRef 0) ∧
  equal Sample.loops (VRef 0) (VRef 1) = equal Sample.loops (VRef 1) (VRef 0).
Proof.
  split.
  - apply (comparator_symmetric Nested.rows (VRef 0) (VRef 1)).
    + apply rows_heap_ok.
    + simpl. lia.
    + simpl. lia.
    + apply tame_tame_value, rows_tame.
    + apply tame_tame_value, rows_tame.
    + apply rows_proper.
    + apply rows_proper.
    + apply rows_keys_are_own.
    + apply rows_one_to_one.
  - apply (comparator_symmetric Sample.loops (VRef 0) (VRef 1)).
    + apply loops_heap_ok.
    + simpl. lia.
    + simpl. lia.
    + apply tame_tame_value, loops_tame.
    + apply tame_tame_value, loops_tame.
    + apply loops_proper.
    + apply loops_proper.
    + apply loops_keys_are_own.
    + apply loops_one_to_one.
Defined.

(** ** The record rule *)

(** C3, the failing input.  [{constructor: Object}] and [{z: 1}] have
    different own keys, yet [deepEqual] answers true: [in] finds
    [constructor] on the second record through its prototype, [objB[key]]
    reads the same function there, and both records have one key. *)
Lemma in_operator_finds_inherited_key :
  equal Sample.inherited_key (VRef 0) (VRef 1) = Some true ∧
  ¬ same_keys_equal_members Sample.inherited_key 0
      [Property "constructor" true (VFunction 0)] [Property "z" true (Sample.num 1)].
Proof.
  split; [vm_compute; reflexivity|]. intros [Hkeys _].
  specialize (Hkeys "z"). unfold keys, enumerable_props in Hkeys. simpl in Hkeys.
  set_solver.
Qed.

(** Where one member is met twice the memo answers in place of the
    comparison: [{p: x, q: x}] against [{p: y1, q: y2}] is unequal although
    the keys agree and [deepEqual(a.p, b.p)] and [deepEqual(a.q, b.q)] are
    both true. *)
Lemma shared_member_answered_by_memo :
  equal Sample.shared_member (VRef 0) (VRef 1) = Some false ∧
  same_keys_equal_members Sample.shared_member 0
    [Property "p" true (VRef 2); Property "q" true (VRef 2)]
    [Property "p" true (VRef 3); Property "q" true (VRef 4)].
Proof.
  split; [vm_compute; reflexivity|]. split.
  - intros k. done.
  - intros k Hk. unfold keys, enumerable_props in Hk. simpl in Hk.
    apply elem_of_cons in Hk as [->|Hk]; [vm_compute; reflexivity|].
    apply list_elem_of_singleton in Hk as ->. vm_compute; reflexivity.
Qed.

(** C3, the rule of the code.  For two different records of the same
    prototype, the left one a tree in which no [Set] or [Map] holds an
    object, so that no object is met twice and the memo is never hit: the
    comparator answers true if and only if both have as many own enumerable
    string keys and every such key of the left record is found on the right
    one by [in], under two members that the comparator, called on them,
    finds equal, to whatever depth.  Symbol-keyed members and the order of
    the keys play no part.  Where [in] finds only own enumerable keys this
    is the rule of the claim: the same set of keys, and equal members.
    Where it finds a key that the right record inherits or hides, the
    answer is true although the sets of keys differ. *)
Theorem keyed_record_rule h la lb p psa sya psb syb :
  tame_value h (VRef la) →
  objects h !! la = Some (ORecord p psa sya) →
  objects h !! lb = Some (ORecord p psb syb) →
  la ≠ lb → unshared h (VRef la) →
  (equal h (VRef la) (VRef lb) = Some true ↔ in_rule h p psa psb) ∧
  (NoDup (keys psa) → NoDup (keys psb) →
   (∀ k, k ∈ keys psa → has_property h p psb k = true → k ∈ keys psb) →
   (equal h (VRef la) (VRef lb) = Some true ↔ same_keys_equal_members h p psa psb)) ∧
  (in_rule h p psa psb → (∃ k, k ∈ keys psa ∧ k ∉ keys psb) →
   equal h (VRef la) (VRef lb) = Some true ∧ ¬ same_keys_equal_members h p psa psb).
Proof.
  intros Htame Hoa Hob Hne Hun.
  assert (equal h (VRef la) (VRef lb) = Some true ↔ in_rule h p psa psb) as Hrule.
  { split; [by eapply equal_in_rule|by eapply in_rule_equal]. }
  split_and!; [done| |].
  - intros Hnda Hndb Hown. rewrite Hrule. by apply in_rule_same_keys.
  - intros Hin (k & Hka & Hkb). split; [by apply Hrule|].
    intros [Hkeys _]. by apply Hkb, Hkeys.
Qed.

(** [{user: {name: "ann"}, n: 1}], with a symbol-keyed member besides, and
    [{n: 1, user: {name: "ann"}}]: the same keys and equal members.  And
    [{constructor: Object}] against [{z: 1}]: the rule of the code holds,
    the sets of keys differ. *)
Lemma keyed_record_rule_witness :
  equal Nested.profiles (VRef 0) (VRef 1) = Some true ∧
  (equal Sample.inherited_key (VRef 0) (VRef 1) = Some true ∧
   ¬ same_keys_equal_members Sample.inherited_key 0
       [Property "constructor" true (VFunction 0)] [Property "z" true (Sample.num 1)]).
Proof.
  split.
  - apply (proj1 (proj2 (keyed_record_rule Nested.profiles 0 1 0
             [Property "user" true (VRef 2); Property "n" true (Sample.num 1)]
             [(7, Sample.num 9)]
             [Property "n" true (Sample.num 1); Property "user" true (VRef 3)] []
             (tame_tame_value _ _ profiles_tame) eq_refl eq_refl ltac:(lia) profiles_unshared))).
    + compute_done.
    + compute_done.
    + intros k Hk _. unfold keys, enumerable_props in *. simpl in *. set_solver.
    + split.
      * intros k. unfold keys, enumerable_props. simpl. set_solver.
      * intros k Hk. unfold keys, enumerable_props in Hk. simpl in Hk.
        apply elem_of_cons in Hk as [->|Hk]; [vm_compute; reflexivity|].
        apply list_elem_of_singleton in Hk as ->. vm_compute; reflexivity.
  - apply (proj2 (proj2 (keyed_record_rule Sample.inherited_key 0 1 0
             [Property "constructor" true (VFunction 0)] []
             [Property "z" true (Sample.num 1)] []
             (tame_tame_value _ _ inherited_key_tame) eq_refl eq_refl ltac:(lia) inherited_key_unshared))).
    + split; [reflexivity|]. intros k Hk.
      unfold keys, enumerable_props in Hk. simpl in Hk.
      apply list_elem_of_singleton in Hk as ->. split; vm_compute; reflexivity.
    + exists "constructor". unfold keys, enumerable_props. simpl. set_solver.
Defined.

(** ** Cycle safety *)

(** C8, the failing inputs.  First, a self-referential record holding a
    [Set] of two records, compared with the value that the same expression
    builds a second time: the answer is false, because the second element of
    the one set, once compared with the first element of the other and found
    different, stays recorded with it.  Second,
    [a = [new Set([x, y]), x, a]] against [b = [new Set([y, x]), y, b]]
    where [x = {v:1}] and [y = {v:2}] differ: the answer is true, because
    the pair [x], [y] was recorded while the sets were compared. *)
Lemma cycle_memo_misjudges :
  equal Sample.looped_sets (VRef 0) (VRef 4) = Some false ∧
  equal Sample.looped_arrays (VRef 0) (VRef 1) = Some true ∧
  equal Sample.looped_arrays (VRef 4) (VRef 5) = Some false.
Proof. split_and!; vm_compute; reflexivity. Qed.

(** No cycle is needed: the [Set] of that value and its copy alone compare
    unequal. *)
Lemma set_differs_from_its_copy :
  equal Sample.looped_sets (VRef 1) (VRef 5) = Some false.
Proof. vm_compute; reflexivity. Qed.

(** C8, as the code has it.  On every heap, cyclic or not, the comparison
    of two values returns: every nested call first records a left-hand
    object that was not recorded before, so the depth of the recursion is
    at most the number of objects.  Where no [Set] or [Map] of the
    left-hand value holds an object the answer is the right one, at
    whatever depth the two values differ: true when some pairing lays the
    left-hand objects over right-hand objects that agree, false when there
    is none.  But the memo also keeps the pairs whose comparison failed:
    once [x] was compared with [y] and found different, every later
    comparison of [x] in the same top-level call is answered from the memo,
    equal to [y] and different from every other object of its kind, however
    alike. *)
Theorem cycle_safety h :
  heap_ok h →
  (∀ a b, value_ok h a → value_ok h b → ∃ r, equal h a b = Some r) ∧
  (∀ a b, value_ok h a → value_ok h b → tame_value h a →
     ((∃ φ : memo, agreement h φ ∧ paired φ a b) → equal h a b = Some true) ∧
     (¬ (∃ φ : memo, agreement h φ ∧ paired φ a b) → equal h a b = Some false)) ∧
  (∀ fuel x y ox oy (s s' : memo),
     objects h !! x = Some ox → objects h !! y = Some oy →
     getPrototypeOf ox = getPrototypeOf oy → x ≠ y → s !! x = None →
     deepEqual fuel h (VRef x) (VRef y) s = Some (false, s') →
     ∀ n z oz (t : memo), s' ⊆ t → objects h !! z = Some oz →
       getPrototypeOf oz = getPrototypeOf ox → z ≠ x →
       deepEqual (S n) h (VRef x) (VRef z) t = Some (bool_decide (y = z), t)).
Proof.
  intros Hh.
  assert (∀ a b, value_ok h a → value_ok h b → ∃ r, equal h a b = Some r) as Htotal.
  { intros a b Ha Hb. destruct (deepEqual_total h a b Hh Ha Hb) as (r & s & Hr).
    exists r. unfold equal. by rewrite Hr. }
  split_and!; [done| |].
  - intros a b Ha Hb Htame. split.
    + intros (φ & Hag & Hp). by eapply agreement_equal_true.
    + intros Hnone. destruct (Htotal a b Ha Hb) as [[] Hr]; [|done].
      destruct Hnone. destruct (equal_true_agreement h a b Htame Hr) as (φ & ? & ? & _).
      by exists φ.
  - intros fuel x y ox oy s s' Hox Hoy Hproto Hne Hnone Hr n z oz t Ht Hoz Hpz Hnz.
    eapply recorded_pair_answers; [done..|].
    eapply lookup_weaken; [|done]. by eapply compared_pair_recorded.
Qed.

(** [{self: a, v: {x: 1}}] against [{self: c, v: {x: 1}}] and against
    [{self: b, v: {x: 2}}]; and, in the comparison of
    [{self: a, items: new Set([{v:1}, {v:2}])}] with its copy, the element
    [{v:2}] against its twin after it was compared with [{v:1}]. *)
Lemma cycle_safety_witness :
  equal Nested.differ_below (VRef 0) (VRef 4) = Some true ∧
  equal Nested.differ_below (VRef 0) (VRef 2) = Some false ∧
  deepEqual 1 Sample.looped_sets (VRef 3) (VRef 7) {[0 := 4; 1 := 5; 2 := 6; 3 := 6]} =
    Some (false, {[0 := 4; 1 := 5; 2 := 6; 3 := 6]}).
Proof.
  split_and!.
  - apply (cycle_safety Nested.differ_below differ_below_heap_ok);
      [simpl; lia|simpl; lia|apply tame_tame_value, differ_below_tame|].
    exists {[0 := 4; 1 := 5]}. split; [apply differ_below_agreement|].
    right. by exists 0, 4.
  - apply (cycle_safety Nested.differ_below differ_below_heap_ok);
      [simpl; lia|simpl; lia|apply tame_tame_value, differ_below_tame|].
    apply differ_below_no_agreement.
  - apply (proj2 (proj2 (cycle_safety Sample.looped_sets looped_sets_heap_ok))
             2 3 6 (Sample.literal [("v", Sample.num 2)]) (Sample.literal [("v", Sample.num 1)])
             {[0 := 4; 1 := 5; 2 := 6]} {[0 := 4; 1 := 5; 2 := 6; 3 := 6]}
             eq_refl eq_refl eq_refl ltac:(lia) eq_refl
             ltac:(vm_compute; reflexivity)
             0 7 (Sample.literal [("v", Sample.num 2)]) _ ltac:(done) eq_refl eq_refl ltac:(lia)).
Defined.

(** * The store: what holds of the claims *)

(** C1 (the code departs from the claim).  A store that [createStore] builds
    with a non-empty list of forwarding middlewares rejects every dispatch:
    [guardedDispatch] calls [store.dispatch], which [createStore] has by then
    replaced with the composed pipeline, so the call comes back to
    [guardedDispatch] while the flag is set.  The re-entrancy error leaves
    the store as it was: the reducer is never called. *)
Theorem createStore_pipeline_rejects E h red init mws a :
  mws ≠ [] → Forall (λ mw, mw = forward) mws →
  evaluates E (Dispatch StoreDispatch a) (createStore h red init mws)
    (Threw reentrancy_error, log (Entered a) (createStore h red init mws)).
Proof.
  intros Hne Hfw. rewrite createStore_composed by done.
  set (d := layers 0 (length mws)).
  set (w := World h red init [] d mws d false []).
  set (w1 := with_reducing true (log (Entered a) w)).
  assert (Hchain : ∀ j, 0 ≤ j < 0 + length mws → mws !! j = Some forward).
  { intros j Hj. destruct (lookup_lt_is_Some_2 mws j) as [mw Hmw]; [lia|].
    rewrite Hmw. f_equal. eapply Forall_lookup_1 in Hfw; [|done]. done. }
  (* the nested call: the flag is set *)
  assert (evaluates E (Dispatch d a) w1 (Threw reentrancy_error, w1)) as [f1 Hf1].
  { apply layers_forward; [done|]. by exists 1. }
  (* the outer call *)
  assert (evaluates E (Dispatch GuardedDispatch a) w (Threw reentrancy_error, log (Entered a) w)) as Hg.
  { exists (S (S f1)). remember f1 as g eqn:Eg. clear Eg.
    cbn [exec]. simpl isReducing. cbn iota.
    fold w1. change (store_dispatch w1) with d. by rewrite Hf1. }
  apply (layers_forward E a (length mws) 0 w) in Hg as [f Hf]; [|done].
  exists (S f). cbn [exec]. done.
Qed.

(** [createStore(counter, {count: 0}, [forward]).dispatch({type: "inc"})]
    throws, and [getState()] is still [{count: 0}]. *)
Lemma createStore_pipeline_rejects_witness :
  evaluates Sample.functions (Dispatch StoreDispatch Sample.inc) Sample.piped_store
    (Threw reentrancy_error, log (Entered Sample.inc) Sample.piped_store) ∧
  getState (log (Entered Sample.inc) Sample.piped_store) = VRef 0 ∧
  objects (store_heap (log (Entered Sample.inc) Sample.piped_store)) !! 0
    = Some (Sample.count_obj 0).
Proof.
  split; [|done].
  apply (createStore_pipeline_rejects Sample.functions Sample.initial_heap Sample.counter
           (VRef 0) [forward] Sample.inc); [done|by repeat constructor].
Defined.

(** The same pipeline over a store built without middlewares, as the tests
    build it, lets the action through. *)
Lemma applyMiddleware_on_plain_store :
  ∃ w', exec 8 Sample.functions
          (Dispatch (applyMiddleware Sample.plain_store [forward]).1 Sample.inc)
          (applyMiddleware Sample.plain_store [forward]).2 = Some (Returned VUndefined, w') ∧
        getState w' = VRef 1 ∧
        objects (store_heap w') !! 1 = Some (Sample.count_obj 1).
Proof. eexists. split; [vm_compute; reflexivity|]. split; reflexivity. Qed.

(** C4: when the reducer returns a value that the comparator finds equal to
    the current state, the dispatch ends there: the store is left as the
    reducer left it, no write to the state cell and no listener called.  For
    a reducer that only computes, the state cell and the listener set are
    those from before the dispatch, and the trace has gained the call of the
    reducer and nothing else. *)
Theorem dispatch_suppressed E w a v w1 :
  evaluates E (Run (reducer w (currentState w) a)) (log (Reduced (currentState w) a) w)
    (Returned v, w1) →
  equal (store_heap w1) v (currentState w1) = Some true →
  evaluates E (Dispatch BaseArrow a) w (Returned VUndefined, w1) ∧
  (store_dispatch w = BaseArrow →
     evaluates E (Dispatch StoreDispatch a) w (Returned VUndefined, w1)) ∧
  (computes (reducer w (currentState w) a) → reduced_only w a w1).
Proof.
  intros Hred Heq. split_and!.
  - by eapply baseDispatch_suppressed.
  - intros Hd. apply storeDispatch_base; [done|]. by eapply baseDispatch_suppressed.
  - intros Hc. by eapply reducer_computes.
Qed.

(** [clone] returns a fresh [{count: 0}]: no listener is called, the state
    is the object from before. *)
Lemma dispatch_suppressed_witness :
  evaluates Sample.functions (Dispatch StoreDispatch Sample.clone) Sample.watched_store
    (Returned VUndefined,
     (alloc (Sample.count_obj 0) (log (Reduced (VRef 0) Sample.clone) Sample.watched_store)).2) ∧
  getState (alloc (Sample.count_obj 0)
              (log (Reduced (VRef 0) Sample.clone) Sample.watched_store)).2 = VRef 0 ∧
  trace (alloc (Sample.count_obj 0)
           (log (Reduced (VRef 0) Sample.clone) Sample.watched_store)).2
    = [Reduced (VRef 0) Sample.clone].
Proof.
  split; [|done].
  apply (dispatch_suppressed Sample.functions Sample.watched_store Sample.clone (VRef 1)).
  - exists 4. vm_compute. reflexivity.
  - vm_compute. reflexivity.
  - reflexivity.
Defined.

(** C5, counterexample.  Listeners 3 and 2 are subscribed, in that order;
    listener 3, when called, cancels the subscription of listener 2.  The
    dispatch of [inc] replaces the state and calls listener 3; listener 2,
    registered when the dispatch began, is not called. *)
Lemma notification_skips_cancelled_listener :
  2 ∈ live (listeners Sample.cancelling_store) ∧
  ∃ w', exec 8 Sample.functions (Dispatch StoreDispatch Sample.inc) Sample.cancelling_store
          = Some (Returned VUndefined, w') ∧
        getState w' = VRef 1 ∧
        times_notified 3 (trace w') = 1 ∧
        times_notified 2 (trace w') = 0.
Proof.
  split; [compute_done|].
  eexists. split; [vm_compute; reflexivity|]. split_and!; reflexivity.
Qed.

(** C5, as amended: when the reducer returns a value that the comparator
    finds unequal to the current state, and the listeners registered at that
    moment only look (they read the state, and neither dispatch, subscribe,
    unsubscribe nor throw), the state cell is replaced first, and then the
    listeners are called in order, once for every entry of the set, each
    with the new state; every [getState()] inside them answers the new
    state. *)
Theorem notification_exact E w a v w1 :
  evaluates E (Run (reducer w (currentState w) a)) (log (Reduced (currentState w) a) w)
    (Returned v, w1) →
  equal (store_heap w1) v (currentState w1) = Some false →
  (∀ l, l ∈ live (listeners w1) → passive (store_heap w1) v (listener E l v)) →
  evaluates E (Dispatch BaseArrow a) w
    (Returned VUndefined,
     log_all (Swapped v :: pass E (store_heap w1) v (live (listeners w1)))
             (with_state v w1)) ∧
  (NoDup (live (listeners w1)) →
   ∀ l, l ∈ live (listeners w1) →
     times_notified l (pass E (store_heap w1) v (live (listeners w1))) = 1).
Proof.
  intros Hred Heq Hp. split; [by apply baseDispatch_passive|].
  intros Hnd l Hl. rewrite times_notified_pass. by apply count_NoDup.
Qed.

(** Listeners 1 and 2 on the counter: after [inc] the trace reads: reducer
    called, state replaced, listener 1 called with the new state and seeing
    it through [getState()], listener 2 called with the new state. *)
Lemma notification_exact_witness :
  evaluates Sample.functions (Dispatch BaseArrow Sample.inc) Sample.watched_twice
    (Returned VUndefined,
     log_all [Swapped (VRef 1); Notified 1 (VRef 1); Observed (VRef 1); Notified 2 (VRef 1)]
       (with_state (VRef 1)
          (alloc (Sample.count_obj 1)
             (log (Reduced (VRef 0) Sample.inc) Sample.watched_twice)).2)).
Proof.
  apply (notification_exact Sample.functions Sample.watched_twice Sample.inc (VRef 1)
           (alloc (Sample.count_obj 1)
              (log (Reduced (VRef 0) Sample.inc) Sample.watched_twice)).2).
  - exists 4. vm_compute. reflexivity.
  - vm_compute. reflexivity.
  - intros l Hl. change (live (listeners _)) with [1; 2] in Hl.
    apply elem_of_cons in Hl as [->|Hl]; [done|].
    by apply list_elem_of_singleton in Hl as ->.
Defined.

(** C6: when the reducer throws, the dispatch throws the same value and the
    store is left as it was when the reducer threw: no write to the state
    cell, no listener called.  For a reducer that only computes, the state
    cell holds the state from before the dispatch. *)
Theorem reducer_failure_propagates E w a e w1 :
  evaluates E (Run (reducer w (currentState w) a)) (log (Reduced (currentState w) a) w)
    (Threw e, w1) →
  evaluates E (Dispatch BaseArrow a) w (Threw e, w1) ∧
  (store_dispatch w = BaseArrow → evaluates E (Dispatch StoreDispatch a) w (Threw e, w1)) ∧
  (computes (reducer w (currentState w) a) → reduced_only w a w1).
Proof.
  intros Hred. split_and!.
  - by apply baseDispatch_threw.
  - intros Hd. apply storeDispatch_base; [done|]. by apply baseDispatch_threw.
  - intros Hc. by eapply reducer_computes.
Qed.

(** [boom] makes the counter throw: the dispatch throws, listener 1 is not
    called, the state is still [{count: 0}]. *)
Lemma reducer_failure_propagates_witness :
  evaluates Sample.functions (Dispatch StoreDispatch Sample.boom) Sample.watched_store
    (Threw (Error "boom"), log (Reduced (VRef 0) Sample.boom) Sample.watched_store) ∧
  getState (log (Reduced (VRef 0) Sample.boom) Sample.watched_store) = VRef 0 ∧
  trace (log (Reduced (VRef 0) Sample.boom) Sample.watched_store)
    = [Reduced (VRef 0) Sample.boom].
Proof.
  split; [|done].
  apply (reducer_failure_propagates Sample.functions Sample.watched_store Sample.boom
           (Error "boom")).
  - exists 1. vm_compute. reflexivity.
  - reflexivity.
Defined.

(** C7: a call of the guarded dispatcher while its flag is set throws the
    re-entrancy error and changes nothing, so the nested action reaches
    neither the reducer nor the listeners.  A call while the flag is clear
    sets it for as long as the store's dispatch runs: whatever is called
    meanwhile, no other call passes the guard, and when the call returns or
    throws the flag is clear again. *)
Theorem guard_rejects_nested E w a :
  (isReducing w = true →
     ∀ fuel, 0 < fuel →
       exec fuel E (Dispatch GuardedDispatch a) w = Some (Threw reentrancy_error, w)) ∧
  (isReducing w = false →
     ∀ r, evaluates E (Dispatch GuardedDispatch a) w r →
       isReducing r.2 = false ∧
       ∃ tr, trace r.2 = trace w ++ Entered a :: tr ∧ Forall (λ e, ¬ is_entered e) tr).
Proof.
  split.
  - intros Hflag [|n] Hn; [lia|]. cbn [exec]. by rewrite Hflag.
  - intros Hflag r [[|n] Hrun]; [done|]. cbn [exec] in Hrun. rewrite Hflag in Hrun.
    destruct (exec n E (Dispatch StoreDispatch a) _) as [[o w1]|] eqn:Hin; [|done].
    injection Hrun as <-. simpl. split; [done|].
    apply guard_closed with (w0 := with_reducing true (log (Entered a) w)) in Hin;
      [|done|apply quiet_refl].
    destruct Hin as [_ (tr & Htr & Hall)]. simpl in Htr. exists tr. split; [|done].
    rewrite Htr. by rewrite <- app_assoc.
Qed.

(** The reducer [reentrant] calls the guarded dispatcher from inside a
    guarded dispatch: the nested call throws, the outer call ends with that
    error and with the flag clear, and the reducer was called once, for the
    outer action only. *)
Lemma guard_rejects_nested_witness :
  exec 1 Sample.functions (Dispatch GuardedDispatch Sample.inc)
       (with_reducing true Sample.guarded_store)
    = Some (Threw reentrancy_error, with_reducing true Sample.guarded_store) ∧
  isReducing
    (with_reducing false
       (log (Reduced (VRef 0) Sample.inc)
          (with_reducing true (log (Entered Sample.inc) Sample.guarded_store)))) = false ∧
  ∃ tr, trace
          (with_reducing false
             (log (Reduced (VRef 0) Sample.inc)
                (with_reducing true (log (Entered Sample.inc) Sample.guarded_store))))
          = trace Sample.guarded_store ++ Entered Sample.inc :: tr ∧
        Forall (λ e, ¬ is_entered e) tr.
Proof.
  split.
  - apply (guard_rejects_nested Sample.functions (with_reducing true Sample.guarded_store)
             Sample.inc); [reflexivity|lia].
  - apply (proj2 (guard_rejects_nested Sample.functions Sample.guarded_store Sample.inc)
             eq_refl
             (Threw reentrancy_error,
              with_reducing false
                (log (Reduced (VRef 0) Sample.inc)
                   (with_reducing true (log (Entered Sample.inc) Sample.guarded_store))))).
    exists 6. vm_compute. reflexivity.
Defined.

(** C9: in a store without middlewares, a dispatched thunk goes to the
    reducer as the action: [reducer(currentState, thunk)] is what the
    hypothesis runs.  The result is then treated as for any action: it is
    dropped when equal to the current state, and otherwise becomes the state
    of which the listeners are notified.  A reducer that only computes leaves
    the call of the reducer and its own notes in the trace: the thunk is not
    called. *)
Theorem thunk_goes_to_reducer E w t v w1 :
  store_dispatch w = BaseArrow →
  evaluates E (Run (reducer w (currentState w) (Thunk t)))
    (log (Reduced (currentState w) (Thunk t)) w) (Returned v, w1) →
  (equal (store_heap w1) v (currentState w1) = Some true →
     evaluates E (Dispatch StoreDispatch (Thunk t)) w (Returned VUndefined, w1)) ∧
  (equal (store_heap w1) v (currentState w1) = Some false →
     ∀ r, evaluates E (ForEach 0) (log (Swapped v) (with_state v w1)) r →
          evaluates E (Dispatch StoreDispatch (Thunk t)) w r) ∧
  (computes (reducer w (currentState w) (Thunk t)) → reduced_only w (Thunk t) w1).
Proof.
  intros Hd Hred. split_and!.
  - intros Heq. apply storeDispatch_base; [done|]. by eapply baseDispatch_suppressed.
  - intros Heq r Hr. apply storeDispatch_base; [done|]. by eapply baseDispatch_changed.
  - intros Hc. by eapply reducer_computes.
Qed.

(** Thunk 0 would dispatch [inc]; dispatched to the plain store it is handed
    to the counter, which returns the state it was given: nothing changes,
    and the trace holds the call of the reducer only. *)
Lemma thunk_goes_to_reducer_witness :
  evaluates Sample.functions (Dispatch StoreDispatch (Thunk 0)) Sample.watched_store
    (Returned VUndefined, log (Reduced (VRef 0) (Thunk 0)) Sample.watched_store) ∧
  trace (log (Reduced (VRef 0) (Thunk 0)) Sample.watched_store)
    = [Reduced (VRef 0) (Thunk 0)].
Proof.
  split; [|done].
  refine (proj1 (thunk_goes_to_reducer Sample.functions Sample.watched_store 0 (VRef 0)
                   (log (Reduced (VRef 0) (Thunk 0)) Sample.watched_store) eq_refl _) _).
  - exists 1. vm_compute. reflexivity.
  - vm_compute. reflexivity.
Defined.

(** C10: subscribing a listener that is already subscribed changes nothing,
    so the set holds it once; a state-changing dispatch, the listeners only
    looking, calls it once; the capability returned by either call of
    [subscribe] removes it, after which such a dispatch does not call it. *)
Theorem listener_registered_once E w l :
  NoDup (live (listeners w)) →
  listeners (subscribe l (subscribe l w).1).1 = listeners (subscribe l w).1 ∧
  count_occ Nat.eq_dec (live (listeners (subscribe l (subscribe l w).1).1)) l = 1 ∧
  (l ∉ live (listeners ((subscribe l w).2 (subscribe l (subscribe l w).1).1))) ∧
  (l ∉ live (listeners ((subscribe l (subscribe l w).1).2 (subscribe l (subscribe l w).1).1))) ∧
  ∀ w0 a v w1,
    evaluates E (Run (reducer w0 (currentState w0) a))
      (log (Reduced (currentState w0) a) w0) (Returned v, w1) →
    computes (reducer w0 (currentState w0) a) →
    equal (store_heap w1) v (currentState w1) = Some false →
    (∀ l', l' ∈ live (listeners w0) → passive (store_heap w1) v (listener E l' v)) →
    ∃ w', evaluates E (Dispatch BaseArrow a) w0 (Returned VUndefined, w') ∧
      (w0 = (subscribe l (subscribe l w).1).1 →
         times_notified l (trace w') = times_notified l (trace w0) + 1) ∧
      (w0 = (subscribe l w).2 (subscribe l (subscribe l w).1).1 ∨
       w0 = (subscribe l (subscribe l w).1).2 (subscribe l (subscribe l w).1).1 →
         times_notified l (trace w') = times_notified l (trace w0)).
Proof.
  intros Hnd. simpl. split_and!.
  - by rewrite set_add_idem.
  - rewrite set_add_idem. apply count_NoDup; [by apply NoDup_live_set_add|].
    rewrite live_set_add. case_bool_decide; [done|]. apply elem_of_app. right. by left.
  - apply live_set_delete.
  - apply live_set_delete.
  - intros w0 a v w1 Hred Hc Heq Hp.
    pose proof (reducer_computes _ _ _ _ _ Hc Hred) as (Hs & Hl & tr & Htr & Hall).
    destruct (baseDispatch_counts E w0 a v w1 Hred Heq) as (w' & Hrun & _ & Hcount).
    { intros l' Hl'. apply Hp. by rewrite <- Hl. }
    exists w'. split; [done|].
    assert (times_notified l (trace w1) = times_notified l (trace w0)) as Hsame.
    { rewrite Htr, times_notified_app. simpl.
      rewrite (times_notified_observed l tr) by done. lia. }
    rewrite Hcount, Hsame, Hl. split.
    + intros ->. simpl. rewrite set_add_idem.
      rewrite count_NoDup; [done|by apply NoDup_live_set_add|].
      rewrite live_set_add. case_bool_decide; [done|]. apply elem_of_app. right. by left.
    + intros [-> | ->]; simpl;
        (rewrite (proj1 (count_occ_not_In Nat.eq_dec _ l)); [lia|];
         rewrite <- list_elem_of_In; apply live_set_delete).
Qed.

(** Listener 1 subscribed twice to the counter: one entry, one call on
    [inc]. *)
Lemma listener_registered_once_witness :
  listeners (subscribe 1 (subscribe 1 Sample.plain_store).1).1 = [Some 1] ∧
  count_occ Nat.eq_dec (live (listeners (subscribe 1 (subscribe 1 Sample.plain_store).1).1)) 1 = 1.
Proof.
  pose proof (listener_registered_once Sample.functions Sample.plain_store 1) as H.
  split; [|apply H; constructor].
  etransitivity; [apply H; constructor|reflexivity].
Defined.

(** * More on the comparator *)

(** X1: whatever a call of the comparator returns, every pair that the memo
    held before the call is still in it afterwards: entries are added, never
    changed or removed. *)
Theorem memo_only_grows fuel h a b (s : memo) r s' :
  deepEqual fuel h a b s = Some (r, s') → s ⊆ s'.
Proof.
  revert a b s r s'. induction fuel as [|fuel IH]; intros a b s r s'; [done|].
  cbn [deepEqual]. destruct (object_is a b); [by intros [= _ <-]|].
  destruct a as [| | | | | | |la]; try by intros [= _ <-].
  destruct b as [| | | | | | |lb]; try by intros [= _ <-].
  destruct (objects h !! la) as [oa|]; [|done].
  destruct (objects h !! lb) as [ob|]; [|done].
  destruct (negb _); [by intros [= _ <-]|].
  destruct (s !! la) as [c|] eqn:Hc; [by intros [= _ <-]|].
  assert (s ⊆ <[la:=lb]> s) as Hgrow by (by apply insert_subseteq).
  destruct oa, ob; try done.
  - destruct (negb _); [by intros [= _ <-]|].
    intros Hr. etrans; [done|]. by eapply every_index_grows.
  - by intros [= _ <-].
  - by intros [= _ <-].
  - destruct (negb _); [by intros [= _ <-]|].
    intros Hr. etrans; [done|]. by eapply every_element_grows.
  - destruct (negb _); [by intros [= _ <-]|].
    intros Hr. etrans; [done|]. by eapply every_entry_grows.
  - destruct (every_key _ _ _ _ _ _ _) as [[[] s1]|] eqn:Hk; [| |done].
    + intros [= _ <-]. etrans; [done|]. by eapply every_key_grows.
    + intros [= _ <-]. etrans; [done|]. by eapply every_key_grows.
Qed.

(** Comparing the two records [{v: 1}] of [Sample.shared_member] when the
    memo already pairs the two outer records. *)
Lemma memo_only_grows_witness :
  ({[0 := 1]} : memo) ⊆ <[2 := 3]> {[0 := 1]}.
Proof.
  apply (memo_only_grows 3 Sample.shared_member (VRef 2) (VRef 3) {[0 := 1]} true).
  vm_compute. reflexivity.
Defined.


(** X2: on a heap whose Sets and Maps hold primitives, the comparator
    answers true exactly when some pairing of left-hand with right-hand
    objects pairs the two values and puts side by side only objects that
    agree: same kind, and members that are identical or paired in turn.  One
    left-hand object has one partner; cycles and shared objects are
    covered. *)
Theorem comparator_characterised h a b :
  tame h →
  equal h a b = Some true ↔ ∃ φ : memo, agreement h φ ∧ paired φ a b.
Proof.
  intros Htame. unfold equal. split.
  - destruct (deepEqual _ h a b ∅) as [[r s']|] eqn:Hr; [|done].
    intros [= ->].
    apply deepEqual_sound in Hr as (_ & Hp & Hadd); [|by apply tame_tame_value].
    exists s'. split; [|done]. intros la lb Hl. by apply Hadd.
  - intros (φ & Hm & Hp).
    destruct (deepEqual_agree_from (S (length (objects h))) h φ Hm a b ∅)
      as (s & -> & _); [by apply tame_tame_value|done|apply map_empty_subseteq| |done].
    unfold unseen. rewrite dom_empty_L, difference_empty_L, size_set_seq. lia.
Qed.


(** [a = {self: a}] and [b = {self: b}]: the comparator answers true, so a
    pairing exists. *)
Lemma comparator_characterised_witness :
  ∃ φ : memo, agreement Sample.loops φ ∧ paired φ (VRef 0) (VRef 1).
Proof.
  apply (comparator_characterised Sample.loops (VRef 0) (VRef 1) loops_tame).
  vm_compute. reflexivity.
Defined.

(** ** Branch by branch *)

(** X3: an invalid date, whose [getTime()] is [NaN], is equal to itself
    only: compared with any other object, another invalid date included, the
    answer is false, whichever side it stands on. *)
Theorem invalid_date_only_equals_itself h la lb ob :
  objects h !! la = Some (ODate None) → objects h !! lb = Some ob →
  equal h (VRef la) (VRef lb) = Some (bool_decide (la = lb)) ∧
  equal h (VRef lb) (VRef la) = Some (bool_decide (la = lb)).
Proof.
  intros Hoa Hob. unfold equal. cbn [deepEqual]. unfold object_is.
  destruct (decide (la = lb)) as [->|Hne].
  { by rewrite !bool_decide_eq_true_2. }
  rewrite (bool_decide_eq_false_2 (la = lb)) by done.
  rewrite !bool_decide_eq_false_2 by congruence. rewrite Hoa, Hob.
  split; (case_bool_decide as Hproto; cbn [negb]; [|done]); rewrite lookup_empty;
    destruct ob; simpl in Hproto; try done. simpl. by destruct time.
Qed.

Lemma invalid_date_only_equals_itself_witness :
  equal More.dates (VRef 0) (VRef 1) = Some false ∧
  equal More.dates (VRef 1) (VRef 0) = Some false.
Proof.
  apply (invalid_date_only_equals_itself More.dates 0 1 (ODate None)); reflexivity.
Defined.

(** X4: [key in objB] also finds what [objB] inherits.  A record whose only
    own key names an inherited member, holding the inherited value, compares
    equal to any record of the same prototype with one own key, whatever
    that key and its value are. *)
Theorem inherited_member_counts_as_key h la lb p k v k' v' sya syb :
  objects h !! la = Some (ORecord p [Property k true v] sya) →
  objects h !! lb = Some (ORecord p [Property k' true v'] syb) →
  k' ≠ k → assoc (inherited h p) k = Some v →
  equal h (VRef la) (VRef lb) = Some true.
Proof.
  intros Hoa Hob Hk Hinh. unfold equal. cbn [deepEqual]. unfold object_is.
  case_bool_decide as Hid; [done|]. rewrite Hoa, Hob. simpl.
  rewrite bool_decide_eq_true_2 by done. simpl. rewrite lookup_empty.
  assert (0 < length (objects h)) as Hpos by (apply lookup_lt_Some in Hoa; lia).
  destruct (length (objects h)) as [|n] eqn:Hlen; [lia|].
  unfold keys, enumerable_props. simpl.
  unfold has_property, get. simpl.
  rewrite decide_False by done. rewrite decide_True by done. rewrite Hinh. simpl.
  unfold object_is. by rewrite bool_decide_eq_true_2.
Qed.

Lemma inherited_member_counts_as_key_witness :
  equal More.inheriting (VRef 0) (VRef 1) = Some true.
Proof.
  apply (inherited_member_counts_as_key More.inheriting 0 1 0 "toString" (VFunction 1)
           "z" (Sample.num 1) [] []); [reflexivity|reflexivity|done|reflexivity].
Defined.

Lemma no_records_own_keys_only h la lb oa :
  objects h !! la = Some oa →
  match oa with ORecord _ _ _ => False | _ => True end →
  own_keys_only h (VRef la) (VRef lb).
Proof.
  intros Hoa Hkind la' lb' pa psa sya pb psb syb [= <-] _ Ha _.
  rewrite Hoa in Ha. by simplify_eq.
Qed.

(** X5: two arrays of primitives compare equal exactly when they hold the
    same values in the same order. *)
Theorem arrays_equal_in_order h la lb ea eb :
  objects h !! la = Some (OArray ea) → objects h !! lb = Some (OArray eb) →
  la ≠ lb → Forall primitive ea →
  equal h (VRef la) (VRef lb) = Some true ↔ ea = eb.
Proof.
  intros Hoa Hob Hne Hprim.
  destruct (shallow_equal h la lb _ _ Hoa Hob Hne) as (r & -> & Hr);
    [done|done|by eapply no_records_own_keys_only|].
  simpl in Hr. split.
  - intros [= ->]. destruct Hr as [Hr _]. destruct (Hr eq_refl) as [_ Hi]. by apply list_eq.
  - intros ->. f_equal. by apply Hr.
Qed.

Lemma arrays_equal_in_order_witness :
  equal More.small_arrays (VRef 0) (VRef 1) = Some true.
Proof.
  apply (arrays_equal_in_order More.small_arrays 0 1
           [Sample.num 1; Sample.num 2; Sample.num 3]
           [Sample.num 1; Sample.num 2; Sample.num 3]);
    [reflexivity|reflexivity|lia|by repeat constructor|reflexivity].
Defined.

(** X6: two Sets of primitives compare equal exactly when they hold the same
    values, in whatever order they were inserted. *)
Theorem sets_equal_in_any_order h la lb ea eb :
  objects h !! la = Some (OSet ea) → objects h !! lb = Some (OSet eb) →
  la ≠ lb → Forall primitive ea → NoDup ea → NoDup eb →
  equal h (VRef la) (VRef lb) = Some true ↔ ea ≡ₚ eb.
Proof.
  intros Hoa Hob Hne Hprim Hnda Hndb.
  destruct (shallow_equal h la lb _ _ Hoa Hob Hne) as (r & -> & Hr);
    [done|done|by eapply no_records_own_keys_only|].
  simpl in Hr. split.
  - intros [= ->]. destruct Hr as [Hr _]. destruct (Hr eq_refl) as [Hlen Hsub].
    apply submseteq_length_Permutation; [by apply NoDup_submseteq|lia].
  - intros Hperm. f_equal. apply Hr. split; [by rewrite Hperm|].
    intros x Hx. by rewrite <- Hperm.
Qed.

Lemma sets_equal_in_any_order_witness :
  equal Sample.number_sets (VRef 0) (VRef 1) = Some true.
Proof.
  apply (sets_equal_in_any_order Sample.number_sets 0 1
           [Sample.num 1; Sample.num 2; Sample.num 3]
           [Sample.num 3; Sample.num 2; Sample.num 1]);
    [reflexivity|reflexivity|lia|by repeat constructor|compute_done|compute_done|].
  apply NoDup_Permutation; [compute_done|compute_done|]. intros x. set_solver.
Defined.

(** X7: two Maps with primitive keys and values compare equal exactly when
    they hold the same entries, in whatever order they were inserted. *)
Theorem maps_equal_in_any_order h la lb ea eb :
  objects h !! la = Some (OMap ea) → objects h !! lb = Some (OMap eb) →
  la ≠ lb → Forall (λ e, primitive e.1 ∧ primitive e.2) ea →
  NoDup ea.*1 → NoDup eb.*1 →
  equal h (VRef la) (VRef lb) = Some true ↔ ea ≡ₚ eb.
Proof.
  intros Hoa Hob Hne Hprim Hnda Hndb.
  destruct (shallow_equal h la lb _ _ Hoa Hob Hne) as (r & -> & Hr);
    [done|done|by eapply no_records_own_keys_only|].
  simpl in Hr. apply NoDup_fmap_1 in Hnda, Hndb. split.
  - intros [= ->]. destruct Hr as [Hr _]. destruct (Hr eq_refl) as [Hlen Hsub].
    apply submseteq_length_Permutation; [by apply NoDup_submseteq|lia].
  - intros Hperm. f_equal. apply Hr. split; [by rewrite Hperm|].
    intros x Hx. by rewrite <- Hperm.
Qed.

Lemma maps_equal_in_any_order_witness :
  equal More.small_maps (VRef 0) (VRef 1) = Some true.
Proof.
  apply (maps_equal_in_any_order More.small_maps 0 1
           [(VString "a", Sample.num 1); (VString "b", Sample.num 2)]
           [(VString "b", Sample.num 2); (VString "a", Sample.num 1)]);
    [reflexivity|reflexivity|lia|by repeat constructor|compute_done|compute_done|].
  apply perm_swap.
Defined.

(** * More on the store *)

(** ** The listener set *)

Lemma live_set_delete_filter l es :
  live (set_delete l es) = filter (λ l', l' ≠ l) (live es).
Proof.
  induction es as [|[l'|] es IH]; [done| |done].
  change (live (Some l' :: es)) with (l' :: live es).
  change (set_delete l (Some l' :: es))
    with ((if decide (Some l' = Some l) then None else Some l') :: set_delete l es).
  destruct (decide (l' = l)) as [->|Hne].
  - rewrite decide_True by done. rewrite filter_cons_False by (by intros ?). done.
  - rewrite decide_False by congruence. rewrite filter_cons_True by done.
    change (live (Some l' :: set_delete l es)) with (l' :: live (set_delete l es)).
    by rewrite IH.
Qed.

Lemma filter_absent (l : nat) (ls : list nat) : l ∉ ls → filter (λ l', l' ≠ l) ls = ls.
Proof.
  induction ls as [|x ls IH]; [done|]. intros Hl.
  rewrite filter_cons_True by (intros ->; apply Hl; by left).
  rewrite IH; [done|]. intros ?. apply Hl. by right.
Qed.

Lemma set_delete_idem l es : set_delete l (set_delete l es) = set_delete l es.
Proof.
  unfold set_delete. rewrite <- list_fmap_compose. apply list_fmap_ext.
  intros i e _. simpl. destruct (decide (e = Some l)); [done|]. by rewrite decide_False.
Qed.

(** X8: the capability returned by [subscribe(l)] removes [l] and nothing
    else, keeping the other listeners in their order; invoking it a second
    time changes nothing. *)
Theorem unsubscribe_removes_only_that_listener w l :
  live (listeners (unsubscribe l w)) = filter (λ l', l' ≠ l) (live (listeners w)) ∧
  unsubscribe l (unsubscribe l w) = unsubscribe l w.
Proof.
  split.
  - apply live_set_delete_filter.
  - unfold unsubscribe, with_listeners. simpl. by rewrite set_delete_idem.
Qed.

(** X9: subscribing a listener that was not subscribed and then invoking
    the returned capability leaves the listeners that were there before, in
    their order. *)
Theorem subscribe_unsubscribe_round_trip w l :
  l ∉ live (listeners w) →
  live (listeners ((subscribe l w).2 (subscribe l w).1)) = live (listeners w).
Proof.
  intros Hl. simpl. rewrite live_set_delete_filter, live_set_add.
  rewrite bool_decide_eq_false_2 by done.
  rewrite filter_app, (filter_cons_False _ l) by (by intros ?).
  rewrite filter_nil, app_nil_r. by apply filter_absent.
Qed.

Lemma subscribe_unsubscribe_round_trip_witness :
  live (listeners ((subscribe 2 Sample.watched_store).2 (subscribe 2 Sample.watched_store).1))
  = live (listeners Sample.watched_store).
Proof.
  apply (subscribe_unsubscribe_round_trip Sample.watched_store 2). compute_done.
Defined.


Lemma NoDup_live_set_delete l es : NoDup (live es) → NoDup (live (set_delete l es)).
Proof. intros Hnd. rewrite live_set_delete_filter. by apply NoDup_filter. Qed.

Ltac solve_distinct :=
  simpl;
  first [ assumption
        | apply NoDup_live_set_add; assumption
        | apply NoDup_live_set_delete; assumption ].

(** X10: the listener set never holds a listener twice: whatever runs,
    dispatches, listeners and middlewares subscribing and unsubscribing as
    they please, a set without duplicates stays without duplicates. *)
Theorem listeners_stay_distinct fuel E t w r :
  NoDup (live (listeners w)) → exec fuel E t w = Some r →
  NoDup (live (listeners r.2)).
Proof.
  revert t w r. induction fuel as [|n IH]; intros t w r Hnd Hrun; [done|].
  cbn [exec] in Hrun.
  destruct t as [p|d a|i]; [destruct p|destruct d; [| | | | | destruct a|]|];
    repeat match goal with
    | H : Some _ = Some _ |- _ => injection H as <-
    | H : None = Some _ |- _ => discriminate H
    | H : exec n E ?t ?w' = Some ?r |- _ =>
        let Hw := fresh "Hw" in
        assert (NoDup (live (listeners w'))) as Hw by solve_distinct;
        apply (IH t w' r Hw) in H; simpl in H
    | H : match exec n E ?t ?w' with _ => _ end = Some _ |- _ =>
        let Heq := fresh "Heq" in
        destruct (exec n E t w') as [[[] ?]|] eqn:Heq; [| |discriminate H]
    | H : match equal ?h ?a ?b with _ => _ end = Some _ |- _ =>
        destruct (equal h a b) as [[]|]; [| |discriminate H]
    | H : match ?l !! ?i with _ => _ end = Some _ |- _ =>
        destruct (l !! i) as [[]|]
    | H : (if ?b then _ else _) = Some _ |- _ => destruct b
    end; solve_distinct.
Qed.

Lemma listeners_stay_distinct_witness :
  NoDup (live (listeners
    (Returned VUndefined,
     log_all [Swapped (VRef 1); Notified 3 (VRef 1)]
       (with_state (VRef 1)
          (unsubscribe 2
             (alloc (Sample.count_obj 1)
                (log (Reduced (VRef 0) Sample.inc) Sample.cancelling_store)).2))).2)).
Proof.
  apply (listeners_stay_distinct 8 Sample.functions (Dispatch StoreDispatch Sample.inc)
           Sample.cancelling_store).
  - compute_done.
  - vm_compute. reflexivity.
Defined.

(** X11: a reducer that returns the very value the state cell holds, as for
    an action it does not know, makes the dispatch a no-op on every heap and
    for every state, [NaN] included: the comparator is not even asked to
    look into the value. *)
Theorem same_reference_suppressed E w a w1 :
  evaluates E (Run (reducer w (currentState w) a)) (log (Reduced (currentState w) a) w)
    (Returned (currentState w1), w1) →
  evaluates E (Dispatch BaseArrow a) w (Returned VUndefined, w1).
Proof.
  intros Hred. eapply baseDispatch_suppressed; [done|].
  unfold equal. cbn [deepEqual]. unfold object_is. by rewrite bool_decide_eq_true_2.
Qed.

Lemma same_reference_suppressed_witness :
  evaluates Sample.functions (Dispatch BaseArrow (Plain "unknown" VUndefined))
    Sample.watched_store
    (Returned VUndefined,
     log (Reduced (VRef 0) (Plain "unknown" VUndefined)) Sample.watched_store).
Proof.
  apply (same_reference_suppressed Sample.functions Sample.watched_store
           (Plain "unknown" VUndefined)
           (log (Reduced (VRef 0) (Plain "unknown" VUndefined)) Sample.watched_store)).
  exists 1. vm_compute. reflexivity.
Defined.

(** ** The pipeline over a store built without middlewares *)

Lemma guarded_enters E w a o w1 :
  isReducing w = false →
  evaluates E (Dispatch StoreDispatch a) (with_reducing true (log (Entered a) w)) (o, w1) →
  evaluates E (Dispatch GuardedDispatch a) w (o, with_reducing false w1).
Proof.
  intros Hflag [f Hf]. exists (S f). cbn [exec]. by rewrite Hflag, Hf.
Qed.

(** X12: over a store whose [dispatch] is still the base dispatch, the
    dispatcher that [applyMiddleware] composes from forwarding middlewares
    does what the base dispatch does, with the flag set for the time of the
    call and cleared afterwards, whether the call returns or throws. *)
Theorem pipeline_over_plain_store E store mws a o w1 :
  store_dispatch store = BaseArrow → Forall (λ mw, mw = forward) mws →
  evaluates E (Dispatch BaseArrow a)
    (with_reducing true (log (Entered a) (applyMiddleware store mws).2)) (o, w1) →
  evaluates E (Dispatch (applyMiddleware store mws).1 a) (applyMiddleware store mws).2
    (o, with_reducing false w1).
Proof.
  intros Hd Hfw Hbase. rewrite applyMiddleware_layers.
  apply layers_forward.
  - intros j Hj. simpl. destruct (lookup_lt_is_Some_2 mws j) as [mw Hmw]; [lia|].
    rewrite Hmw. f_equal. by eapply Forall_lookup_1 in Hfw.
  - apply guarded_enters; [done|]. by apply storeDispatch_base.
Qed.

Lemma pipeline_over_plain_store_witness :
  evaluates Sample.functions
    (Dispatch (applyMiddleware Sample.plain_store [forward; forward]).1 Sample.inc)
    (applyMiddleware Sample.plain_store [forward; forward]).2
    (Returned VUndefined,
     with_reducing false
       (log (Swapped (VRef 1))
          (with_state (VRef 1)
             (alloc (Sample.count_obj 1)
                (log (Reduced (VRef 0) Sample.inc)
                   (with_reducing true
                      (log (Entered Sample.inc)
                         (applyMiddleware Sample.plain_store [forward; forward]).2)))).2))).
Proof.
  apply (pipeline_over_plain_store Sample.functions Sample.plain_store [forward; forward]
           Sample.inc).
  - reflexivity.
  - by repeat constructor.
  - exists 5. vm_compute. reflexivity.
Defined.

(** ** Onion order *)

Lemma log_all_chain es w : chain (log_all es w) = chain w.
Proof. done. Qed.

Lemma evaluates_ret E v w : evaluates E (Run (Ret v)) w (Returned v, w).
Proof. by exists 1. Qed.

Lemma evaluates_observe E v k w r :
  evaluates E (Run k) (log (Observed v) w) r → evaluates E (Run (Observe v k)) w r.
Proof. intros [f Hf]. by exists (S f). Qed.

Lemma evaluates_call_returned E d a k w v w1 r :
  evaluates E (Dispatch d a) w (Returned v, w1) → evaluates E (Run (k v)) w1 r →
  evaluates E (Run (Call d a k)) w r.
Proof.
  intros [f Hf] [g Hg]. exists (S (f `max` g)). cbn [exec].
  rewrite (exec_mono _ _ _ _ _ Hf) by lia. by rewrite (exec_mono _ _ _ _ _ Hg) by lia.
Qed.

Lemma evaluates_call_threw E d a k w e w1 :
  evaluates E (Dispatch d a) w (Threw e, w1) →
  evaluates E (Run (Call d a k)) w (Threw e, w1).
Proof. intros [f Hf]. exists (S f). cbn [exec]. by rewrite Hf. Qed.

Lemma evaluates_layer E i next a mw w r :
  chain w !! i = Some mw → evaluates E (Run (mw next a)) w r →
  evaluates E (Dispatch (Layer i next) a) w r.
Proof. intros Hmw [f Hf]. exists (S f). cbn [exec]. by rewrite Hmw. Qed.

(** The layers [i], [i+1], ... of logging middlewares around the guarded
    dispatcher. *)
Lemma onion_layers E a tags i w r :
  (∀ j tag, tags !! j = Some tag → chain w !! (i + j) = Some (logging tag.1 tag.2)) →
  evaluates E (Dispatch GuardedDispatch a) (log_all (Observed <$> tags.*1) w) r →
  evaluates E (Dispatch (layers i (length tags)) a) w
    match r.1 with
    | Returned _ => (r.1, log_all (Observed <$> reverse tags.*2) r.2)
    | Threw _ => r
    end.
Proof.
  revert i w. induction tags as [|[b c] tags IH]; intros i w Hchain Hr.
  { simpl in *. rewrite log_all_nil in Hr. destruct r as [[v|e] w1]; simpl; [|done].
    by rewrite log_all_nil. }
  simpl in Hr. rewrite <- log_all_log in Hr.
  apply (IH (S i)) in Hr.
  2:{ intros j tag Hj. simpl. rewrite <- Nat.add_succ_r. by apply (Hchain (S j) tag). }
  pose proof (Hchain 0 (b, c) eq_refl) as H0. rewrite Nat.add_0_r in H0. simpl in H0.
  unfold layers. cbn [length seq foldr]. fold (layers (S i) (length tags)).
  eapply evaluates_layer; [done|]. unfold logging.
  apply evaluates_observe.
  destruct r as [[v|e] w1]; simpl in Hr |- *.
  - eapply evaluates_call_returned; [done|].
    apply evaluates_observe.
    rewrite reverse_cons, fmap_app, <- log_all_app. simpl.
    replace (log_all [Observed c] (log_all (Observed <$> reverse tags.*2) w1))
      with (log (Observed c) (log_all (Observed <$> reverse tags.*2) w1)) by done.
    apply evaluates_ret.
  - by apply evaluates_call_threw.
Qed.

(** X13: the dispatcher composed from logging middlewares [A, B, ...] runs
    them as an onion: the notes "before" in the order of the list, then the
    guarded dispatch, then the notes "after" in the reverse order; when the
    dispatch inside throws, no "after" is noted and the error goes through. *)
Theorem middleware_onion_order E store tags a r :
  evaluates E (Dispatch GuardedDispatch a)
    (log_all (Observed <$> tags.*1)
       (applyMiddleware store ((λ tag, logging tag.1 tag.2) <$> tags)).2) r →
  evaluates E
    (Dispatch (applyMiddleware store ((λ tag, logging tag.1 tag.2) <$> tags)).1 a)
    (applyMiddleware store ((λ tag, logging tag.1 tag.2) <$> tags)).2
    match r.1 with
    | Returned _ => (r.1, log_all (Observed <$> reverse tags.*2) r.2)
    | Threw _ => r
    end.
Proof.
  intros Hr. rewrite applyMiddleware_layers, length_fmap.
  apply onion_layers; [|done].
  intros j tag Hj. simpl. by rewrite list_lookup_fmap, Hj.
Qed.

Lemma middleware_onion_order_witness :
  evaluates Sample.functions (Dispatch (fst MoreStores.onion) Sample.inc) (snd MoreStores.onion)
    (Returned VUndefined,
     log_all [Observed (VString "B after"); Observed (VString "A after")]
       (with_reducing false
          (log (Swapped (VRef 1))
             (with_state (VRef 1)
                (alloc (Sample.count_obj 1)
                   (log (Reduced (VRef 0) Sample.inc)
                      (with_reducing true
                         (log (Entered Sample.inc)
                            (log_all [Observed (VString "A before");
                                      Observed (VString "B before")]
                               (snd MoreStores.onion)))))).2)))).
Proof.
  apply (middleware_onion_order Sample.functions Sample.plain_store
           [(VString "A before", VString "A after");
            (VString "B before", VString "B after")]
           Sample.inc
           (Returned VUndefined,
            with_reducing false
              (log (Swapped (VRef 1))
                 (with_state (VRef 1)
                    (alloc (Sample.count_obj 1)
                       (log (Reduced (VRef 0) Sample.inc)
                          (with_reducing true
                             (log (Entered Sample.inc)
                                (log_all [Observed (VString "A before");
                                          Observed (VString "B before")]
                                   (snd MoreStores.onion)))))).2)))).
  exists 6. vm_compute. reflexivity.
Defined.

(** ** Construction of the chain *)

Lemma construct_pure fuel E cs w :
  0 < fuel → Forall (λ c, ∃ v, setup c = Ret v) cs →
  construct fuel E cs w = Some (None, w).
Proof.
  intros Hfuel. induction 1 as [|c cs [v Hc] _ IH]; [done|].
  simpl. rewrite Hc. destruct fuel; [lia|]. simpl. apply IH.
Qed.

(** Constructors that only return their handler: the chain is the list of
    the handlers, as [applyMiddleware] has it. *)
Lemma applyMiddleware_running_pure fuel E w cs :
  0 < fuel → Forall (λ c, ∃ v, setup c = Ret v) cs →
  applyMiddleware_running fuel E w cs
  = Some (inr (applyMiddleware w (handler <$> cs)).1, (applyMiddleware w (handler <$> cs)).2).
Proof.
  intros Hfuel Hpure. unfold applyMiddleware_running.
  rewrite construct_pure by done. simpl. by rewrite length_fmap.
Qed.

(** X14: a middleware that dispatches a plain action through the capability
    it is handed while the chain is still being built makes
    [applyMiddleware] throw the construction error, the constructors before
    it having returned; no later constructor runs, and nothing of the store
    has changed. *)
Theorem dispatch_while_constructing_throws fuel E w pre c post atype payload k :
  4 ≤ fuel →
  Forall (λ c, ∃ v, setup c = Ret v) pre →
  setup c = Call ApiDispatch (Plain atype payload) k →
  applyMiddleware_running fuel E w (pre ++ c :: post)
  = Some (inl construction_error,
          World (store_heap w) (reducer w) (currentState w) (listeners w)
                (store_dispatch w) [] Placeholder false (trace w)).
Proof.
  intros Hfuel Hpure Hc. unfold applyMiddleware_running.
  set (building := World _ _ _ _ _ [] Placeholder false _).
  assert (construct fuel E (pre ++ c :: post) building
          = Some (Some construction_error, building)) as ->; [|done].
  induction Hpure as [|c' pre [v Hc'] _ IH]; simpl.
  - rewrite Hc. do 4 (destruct fuel as [|fuel]; [lia|]). done.
  - rewrite Hc'. destruct fuel as [|fuel]; [lia|]. cbn [exec]. apply IH.
Qed.

Lemma dispatch_while_constructing_throws_witness :
  applyMiddleware_running 4 Sample.functions Sample.plain_store
    [MoreStores.lazy; MoreStores.eager; MoreStores.lazy]
  = Some (inl construction_error, Sample.plain_store).
Proof.
  apply (dispatch_while_constructing_throws 4 Sample.functions Sample.plain_store
           [MoreStores.lazy] MoreStores.eager [MoreStores.lazy] "inc" VUndefined Ret).
  - lia.
  - repeat constructor. by exists VUndefined.
  - reflexivity.
Defined.

(** ** A listener that throws *)

Lemma pass_app E h s ls ls' : pass E h s (ls ++ ls') = pass E h s ls ++ pass E h s ls'.
Proof. unfold pass. by rewrite flat_map_app. Qed.

(** The notification pass up to entry [i], the listeners before it passive. *)
Lemma forEach_prefix E w i r :
  (∀ l, l ∈ live (take i (listeners w)) →
     passive (store_heap w) (currentState w) (listener E l (currentState w))) →
  evaluates E (ForEach i)
    (log_all (pass E (store_heap w) (currentState w) (live (take i (listeners w)))) w) r →
  evaluates E (ForEach 0) w r.
Proof.
  induction i as [|i IH]; intros Hp Hr.
  { simpl in Hr. by rewrite log_all_nil in Hr. }
  destruct (listeners w !! i) as [e|] eqn:He.
  - rewrite (take_S_r _ _ _ He), live_app in Hp, Hr.
    apply IH; [intros l Hl; apply Hp, elem_of_app; by left|].
    set (w0 := log_all (pass E (store_heap w) (currentState w)
                          (live (take i (listeners w)))) w) in *.
    destruct e as [l|].
    + change (live [Some l]) with [l] in Hp, Hr.
      rewrite pass_app, <- log_all_app in Hr. fold w0 in Hr.
      assert (passive (store_heap w) (currentState w) (listener E l (currentState w))) as Hl.
      { apply Hp, elem_of_app. right. by left. }
      destruct (passive_run E _ (log (Notified l (currentState w)) w0) Hl) as [v Hv].
      change (store_heap (log (Notified l (currentState w)) w0)) with (store_heap w) in Hv.
      change (currentState (log (Notified l (currentState w)) w0)) with (currentState w) in Hv.
      rewrite log_all_log in Hv.
      destruct Hr as [f Hf].
      unfold pass in Hf. simpl in Hf. rewrite app_nil_r in Hf.
      exists (S (f `max` steps (store_heap w) (currentState w) (listener E l (currentState w)))).
      cbn [exec]. change (listeners w0) with (listeners w). rewrite He.
      change (currentState w0) with (currentState w).
      rewrite (exec_mono _ _ _ _ _ Hv) by lia.
      by rewrite (exec_mono _ _ _ _ _ Hf) by lia.
    + change (live [None]) with (@nil nat) in Hr. rewrite app_nil_r in Hr.
      destruct Hr as [f Hf]. exists (S f). cbn [exec].
      change (listeners w0) with (listeners w). by rewrite He.
  - assert (length (listeners w) ≤ i) as Hlen by (by apply lookup_ge_None).
    assert (take (S i) (listeners w) = take i (listeners w)) as Hsame.
    { by rewrite !take_ge by lia. }
    rewrite Hsame in Hr, Hp. apply IH; [done|].
    { set (w0 := log_all _ w) in *.
      assert (∀ j, i ≤ j → evaluates E (ForEach j) w0 (Returned VUndefined, w0)) as Hend.
      { intros j Hj. exists 1. cbn [exec]. change (listeners w0) with (listeners w).
        by rewrite (lookup_ge_None_2 (listeners w) j) by lia. }
      rewrite (evaluates_fun _ _ _ _ _ Hr (Hend (S i) ltac:(lia))). by apply Hend. }
Qed.

(** X15: when a listener throws, the dispatch throws the same value and the
    pass ends there: the listeners before it have been called, those after
    it are not, and the state cell keeps the new state.  Stated for the
    listeners before the failing one only looking; the world is the one the
    failing listener left. *)
Theorem failing_listener_ends_pass E w a v w1 i l e w2 :
  evaluates E (Run (reducer w (currentState w) a)) (log (Reduced (currentState w) a) w)
    (Returned v, w1) →
  equal (store_heap w1) v (currentState w1) = Some false →
  listeners w1 !! i = Some (Some l) →
  (∀ l', l' ∈ live (take i (listeners w1)) → passive (store_heap w1) v (listener E l' v)) →
  evaluates E (Run (listener E l v))
    (log_all (Swapped v :: pass E (store_heap w1) v (live (take i (listeners w1)))
                ++ [Notified l v])
       (with_state v w1))
    (Threw e, w2) →
  evaluates E (Dispatch BaseArrow a) w (Threw e, w2) ∧
  (computes (listener E l v) →
     currentState w2 = v ∧
     ∃ tr, trace w2 = trace w1 ++ Swapped v ::
                        pass E (store_heap w1) v (live (take i (listeners w1)))
                        ++ Notified l v :: tr ∧
           Forall is_observed tr).
Proof.
  intros Hred Heq Hi Hp Hfail. split.
  - eapply baseDispatch_changed; [done..|].
    apply (forEach_prefix E (log (Swapped v) (with_state v w1)) i); [done|].
    change (evaluates E (ForEach i)
              (log_all (pass E (store_heap w1) v (live (take i (listeners w1))))
                 (log (Swapped v) (with_state v w1))) (Threw e, w2)).
    rewrite (log_all_log (Swapped v) _ (with_state v w1)).
    set (w0 := log_all _ (with_state v w1)).
    destruct Hfail as [f Hf]. exists (S f). cbn [exec].
    change (listeners w0) with (listeners w1). rewrite Hi.
    change (currentState w0) with v.
    replace (log (Notified l v) w0) with
      (log_all (Swapped v :: pass E (store_heap w1) v (live (take i (listeners w1)))
                  ++ [Notified l v]) (with_state v w1)); [by rewrite Hf|].
    subst w0. unfold log, log_all. simpl. f_equal. by rewrite <- !app_assoc.
  - intros Hc. destruct Hfail as [f Hf].
    apply computes_run in Hf as (Hs & _ & _ & tr & Ht & Hall); [|done].
    split; [done|]. exists tr. split; [|done].
    rewrite Ht. simpl. rewrite <- !app_assoc. simpl. by rewrite <- app_assoc.
Qed.

Lemma failing_listener_ends_pass_witness :
  evaluates MoreStores.functions (Dispatch BaseArrow Sample.inc) MoreStores.failing_store
    (Threw (Error "listener failed"),
     log_all [Swapped (VRef 1); Notified 1 (VRef 1); Observed (VRef 1); Notified 4 (VRef 1)]
       (with_state (VRef 1)
          (alloc (Sample.count_obj 1)
             (log (Reduced (VRef 0) Sample.inc) MoreStores.failing_store)).2)).
Proof.
  refine (proj1 (failing_listener_ends_pass MoreStores.functions MoreStores.failing_store
           Sample.inc (VRef 1)
           (alloc (Sample.count_obj 1)
              (log (Reduced (VRef 0) Sample.inc) MoreStores.failing_store)).2
           1 4 (Error "listener failed") _ _ _ _ _ _)).
  - exists 4. vm_compute. reflexivity.
  - vm_compute. reflexivity.
  - reflexivity.
  - intros l' Hl'. change (live (take 1 _)) with [1] in Hl'.
    by apply list_elem_of_singleton in Hl' as ->.
  - exists 1. vm_compute. reflexivity.
Defined.

(** ** Dispatching through the pipeline while it is busy *)

(** X16: while a guarded dispatch is in progress, as it is during the
    reducer and during the whole notification pass, a dispatch through the
    composed dispatcher of forwarding middlewares is rejected with the
    re-entrancy error and changes nothing: a listener of a store with a
    pipeline cannot dispatch through that pipeline. *)
Theorem pipeline_busy_rejects E store mws a w :
  Forall (λ mw, mw = forward) mws →
  chain w = mws → isReducing w = true →
  evaluates E (Dispatch (applyMiddleware store mws).1 a) w (Threw reentrancy_error, w).
Proof.
  intros Hfw Hchain Hflag. rewrite applyMiddleware_layers.
  apply layers_forward.
  - intros j Hj. rewrite Hchain. destruct (lookup_lt_is_Some_2 mws j) as [mw Hmw]; [lia|].
    rewrite Hmw. f_equal. by eapply Forall_lookup_1 in Hfw.
  - exists 1. cbn [exec]. by rewrite Hflag.
Qed.

Lemma pipeline_busy_rejects_witness :
  evaluates Sample.functions
    (Dispatch (applyMiddleware Sample.plain_store [forward]).1 Sample.inc)
    (with_reducing true (applyMiddleware Sample.plain_store [forward]).2)
    (Threw reentrancy_error,
     with_reducing true (applyMiddleware Sample.plain_store [forward]).2).
Proof.
  apply (pipeline_busy_rejects Sample.functions Sample.plain_store [forward] Sample.inc
           (with_reducing true (applyMiddleware Sample.plain_store [forward]).2)).
  - by repeat constructor.
  - reflexivity.
  - reflexivity.
Defined.
